(** * SOL USB analyzer gateware: a cycle-level model and its properties

    Source: [sol_usb/gateware/usb/analyzer.py], class [USBAnalyzer].

    The gateware is a synchronous circuit in one clock domain ([usb]).  It is
    modelled as a state record holding every register and every FIFO, and a
    function [step] that computes the state after one clock tick from the
    state before it and the sampled inputs.  Combinational signals are
    functions of the current state and inputs. *)

From Stdlib Require Import ZArith List Bool Lia.
Import ListNotations.
Local Open Scope Z_scope.

(** ** Constants of the class *)

Definition HEADER_SIZE_BITS : Z := 16.
Definition HEADER_SIZE_BYTES : Z := HEADER_SIZE_BITS / 8.
Definition MAX_PACKET_SIZE_BYTES : Z := 1024 + 1 + 2.
Definition LENGTH_BUFFER_DEPTH : Z := 512.

(** Assignment to a [Signal(w)] keeps the low [w] bits. *)
Definition trunc (w : Z) (x : Z) : Z := x mod 2 ^ w.

(** [sig[lo:hi]] of the HDL: bits [lo] to [hi - 1]. *)
Definition slice (x lo hi : Z) : Z := Z.land (Z.shiftr x lo) (2 ^ (hi - lo) - 1).

Definition zlen {A} (l : list A) : Z := Z.of_nat (length l).

(** ** The FIFO primitive *)

Module Fifo.

(** Modelled from the spec: [torii.lib.fifo.SyncFIFOBuffered] belongs to the
    torii library and is not part of this repository.  Following the spec's
    bounded queue (section 3): fixed capacity, a live fill level, a push that
    takes effect only when the level is below the capacity, a pop that takes
    effect only when the queue is not empty, and FIFO order.  The contents are
    kept oldest first; the read port shows the oldest element, and 0 when the
    queue is empty (the spec leaves that value open). *)
Definition t := list Z.

Definition level (q : t) : Z := zlen q.
Definition r_rdy (q : t) : bool := 0 <? level q.
Definition w_rdy (depth : Z) (q : t) : bool := level q <? depth.
Definition r_data (q : t) : Z := hd 0 q.

(** Whether a write strobe is taken this tick. *)
Definition accepts (depth : Z) (q : t) (w_en : bool) : bool := w_en && w_rdy depth q.

(** One clock tick of a FIFO with the given write and read strobes. *)
Definition tick (width depth : Z) (q : t) (w_en : bool) (w_data : Z) (r_en : bool) : t :=
  (if r_en then tl q else q) ++ (if accepts depth q w_en then [trunc width w_data] else []).

End Fifo.

(** ** State of the two FSMs *)

Module Capture.
Inductive state := START | IDLE | CAPTURE.
End Capture.

Module PacketQueue.
Inductive state :=
  IDLE | POP_LENGTH | INSPECT_PACKET | TRANSFER_PACKET | OVERRUN | CLEAR_OVERRUN.
End PacketQueue.

(** ** Construction *)

Inductive ValueError := mem_depth_must_be_a_power_of_2.

(** What [__init__] keeps of its arguments. *)
Record Config := { cfg_mem_size : Z }.

(** [USBAnalyzer.__init__]: raises when [mem_depth % 2 != 0]. *)
Definition init (mem_depth : Z) : ValueError + Config :=
  if negb (mem_depth mod 2 =? 0) then inl mem_depth_must_be_a_power_of_2
  else inr {| cfg_mem_size := mem_depth |}.

Definition is_power_of_two (n : Z) : Prop := exists k : Z, 0 <= k /\ n = 2 ^ k.

(** ** Inputs sampled at a tick *)

Record Inputs := {
  rx_active : bool;       (* utmi.rx_active *)
  rx_valid : bool;        (* utmi.rx_valid *)
  rx_data : Z;            (* utmi.rx_data *)
  capture_enable : bool;
  stream_ready : bool     (* stream.ready, driven by the consumer *)
}.

(** ** Registers and FIFOs *)

Record USBAnalyzer := {
  mem_size : Z;
  data_buffer : Fifo.t;                 (* ringbuffer, width 8, depth mem_size *)
  packet_buffer : Fifo.t;               (* width 8, depth MAX_PACKET_SIZE_BYTES *)
  length_buffer : Fifo.t;               (* width 16, depth 512 *)
  captured_packet_length : Z;           (* Signal(16) *)
  packet_length : Z;                    (* Signal(16) *)
  packet_transferred : Z;               (* Signal(17) *)
  overrun : bool;
  capture : Capture.state;
  packet_queue : PacketQueue.state
}.

(** State after reset: FIFOs empty, registers zero, each FSM in the first
    state it declares. *)
Definition reset (mem_depth : Z) : USBAnalyzer := {|
  mem_size := mem_depth;
  data_buffer := [];
  packet_buffer := [];
  length_buffer := [];
  captured_packet_length := 0;
  packet_length := 0;
  packet_transferred := 0;
  overrun := false;
  capture := Capture.START;
  packet_queue := PacketQueue.IDLE
|}.

(** ** The [capture] FSM *)

(** Everything the capture FSM drives in one tick: its next state, the next
    value of its register, and the write ports of the staging and lengths
    FIFOs (combinational, zero when not driven). *)
Record CaptureDrive := {
  c_next : Capture.state;
  c_captured_packet_length : Z;
  c_packet_w_en : bool;
  c_packet_w_data : Z;
  c_length_w_en : bool;
  c_length_w_data : Z
}.

Definition byte_received (i : Inputs) : bool := rx_valid i && rx_active i.

Definition capture_fsm (st : Capture.state) (captured : Z) (i : Inputs) : CaptureDrive :=
  match st with
  | Capture.START =>
      {| c_next := if negb (rx_active i) && capture_enable i then Capture.IDLE else Capture.START;
         c_captured_packet_length := captured;
         c_packet_w_en := false; c_packet_w_data := 0;
         c_length_w_en := false; c_length_w_data := 0 |}
  | Capture.IDLE =>
      {| c_next := if negb (capture_enable i) then Capture.START
                   else if rx_active i then Capture.CAPTURE else Capture.IDLE;
         c_captured_packet_length :=
           if negb (capture_enable i) then captured
           else if rx_active i then 0 else captured;
         c_packet_w_en := false; c_packet_w_data := 0;
         c_length_w_en := false; c_length_w_data := 0 |}
  | Capture.CAPTURE =>
      {| c_next := if negb (rx_active i) then Capture.IDLE else Capture.CAPTURE;
         c_captured_packet_length :=
           if byte_received i then trunc 16 (captured + 1) else captured;
         c_packet_w_en := byte_received i;
         c_packet_w_data := rx_data i;
         c_length_w_en := negb (rx_active i);
         c_length_w_data := if negb (rx_active i) then captured else 0 |}
  end.

(** ** The [packet_queue] FSM *)

(** Everything the packet_queue FSM drives in one tick. *)
Record QueueDrive := {
  q_next : PacketQueue.state;
  q_packet_length : Z;
  q_packet_transferred : Z;
  q_overrun : bool;
  q_length_r_en : bool;
  q_packet_r_en : bool;
  q_data_w_en : bool;
  q_data_w_data : Z
}.

Definition packet_queue_fsm (s : USBAnalyzer) : QueueDrive :=
  let len := packet_length s in
  let done := packet_transferred s in
  match packet_queue s with
  | PacketQueue.IDLE =>
      {| q_next := if Fifo.r_rdy (length_buffer s) then PacketQueue.POP_LENGTH
                   else PacketQueue.IDLE;
         q_packet_length := len; q_packet_transferred := done; q_overrun := overrun s;
         q_length_r_en := false; q_packet_r_en := false;
         q_data_w_en := false; q_data_w_data := 0 |}
  | PacketQueue.POP_LENGTH =>
      {| q_next := PacketQueue.INSPECT_PACKET;
         q_packet_length := Fifo.r_data (length_buffer s);
         q_packet_transferred := done; q_overrun := overrun s;
         q_length_r_en := true; q_packet_r_en := false;
         q_data_w_en := false; q_data_w_data := 0 |}
  | PacketQueue.INSPECT_PACKET =>
      {| q_next := if mem_size s <? Fifo.level (data_buffer s) + len + 2
                   then PacketQueue.OVERRUN else PacketQueue.TRANSFER_PACKET;
         q_packet_length := len; q_packet_transferred := 0; q_overrun := overrun s;
         q_length_r_en := false; q_packet_r_en := false;
         q_data_w_en := false; q_data_w_data := 0 |}
  | PacketQueue.TRANSFER_PACKET =>
      if done =? 0 then
        {| q_next := PacketQueue.TRANSFER_PACKET;
           q_packet_length := len; q_packet_transferred := trunc 17 (done + 1);
           q_overrun := overrun s;
           q_length_r_en := false; q_packet_r_en := false;
           q_data_w_en := true; q_data_w_data := slice len 8 16 |}
      else if done =? 1 then
        {| q_next := PacketQueue.TRANSFER_PACKET;
           q_packet_length := len; q_packet_transferred := trunc 17 (done + 1);
           q_overrun := overrun s;
           q_length_r_en := false; q_packet_r_en := false;
           q_data_w_en := true; q_data_w_data := slice len 0 8 |}
      else if negb (len =? 0) then
        {| q_next := PacketQueue.TRANSFER_PACKET;
           q_packet_length := trunc 16 (len - 1);
           q_packet_transferred := trunc 17 (done + 1);
           q_overrun := overrun s;
           q_length_r_en := false; q_packet_r_en := true;
           q_data_w_en := true; q_data_w_data := Fifo.r_data (packet_buffer s) |}
      else
        {| q_next := PacketQueue.IDLE;
           q_packet_length := len; q_packet_transferred := trunc 17 (done + 1);
           q_overrun := overrun s;
           q_length_r_en := false; q_packet_r_en := false;
           q_data_w_en := false; q_data_w_data := 0 |}
  | PacketQueue.OVERRUN =>
      {| q_next := if Fifo.level (data_buffer s) + 2 <=? mem_size s
                   then PacketQueue.CLEAR_OVERRUN else PacketQueue.OVERRUN;
         q_packet_length := len; q_packet_transferred := done; q_overrun := true;
         q_length_r_en := false; q_packet_r_en := false;
         q_data_w_en := false; q_data_w_data := 0 |}
  | PacketQueue.CLEAR_OVERRUN =>
      if (done =? 0) || (done =? 1) then
        {| q_next := PacketQueue.CLEAR_OVERRUN;
           q_packet_length := len; q_packet_transferred := trunc 17 (done + 1);
           q_overrun := overrun s;
           q_length_r_en := false; q_packet_r_en := false;
           q_data_w_en := true; q_data_w_data := 255 |}
      else if negb (len =? 0) then
        {| q_next := PacketQueue.CLEAR_OVERRUN;
           q_packet_length := trunc 16 (len - 1); q_packet_transferred := done;
           q_overrun := overrun s;
           q_length_r_en := false; q_packet_r_en := true;
           q_data_w_en := false; q_data_w_data := 0 |}
      else
        {| q_next := PacketQueue.IDLE;
           q_packet_length := len; q_packet_transferred := done; q_overrun := overrun s;
           q_length_r_en := false; q_packet_r_en := false;
           q_data_w_en := false; q_data_w_data := 0 |}
  end.

(** ** One clock tick *)

Definition capture_drive (s : USBAnalyzer) (i : Inputs) : CaptureDrive :=
  capture_fsm (capture s) (captured_packet_length s) i.

Definition step (s : USBAnalyzer) (i : Inputs) : USBAnalyzer :=
  let c := capture_drive s i in
  let q := packet_queue_fsm s in
  {| mem_size := mem_size s;
     data_buffer :=
       Fifo.tick 8 (mem_size s) (data_buffer s)
                 (q_data_w_en q) (q_data_w_data q) (stream_ready i);
     packet_buffer :=
       Fifo.tick 8 MAX_PACKET_SIZE_BYTES (packet_buffer s)
                 (c_packet_w_en c) (c_packet_w_data c) (q_packet_r_en q);
     length_buffer :=
       Fifo.tick 16 LENGTH_BUFFER_DEPTH (length_buffer s)
                 (c_length_w_en c) (c_length_w_data c) (q_length_r_en q);
     captured_packet_length := c_captured_packet_length c;
     packet_length := q_packet_length q;
     packet_transferred := q_packet_transferred q;
     overrun := q_overrun q;
     capture := c_next c;
     packet_queue := q_next q |}.

Fixpoint run (s : USBAnalyzer) (ins : list Inputs) : USBAnalyzer :=
  match ins with
  | [] => s
  | i :: rest => run (step s i) rest
  end.

(** ** Outputs *)

Definition idle (s : USBAnalyzer) : bool :=
  match capture s with Capture.IDLE => true | _ => false end.
Definition capturing (s : USBAnalyzer) : bool :=
  match capture s with Capture.CAPTURE => true | _ => false end.
Definition sampling (s : USBAnalyzer) (i : Inputs) : bool :=
  c_packet_w_en (capture_drive s i).
Definition stream_valid (s : USBAnalyzer) : bool := Fifo.r_rdy (data_buffer s).
Definition stream_payload (s : USBAnalyzer) : Z := Fifo.r_data (data_buffer s).

(** ** What crosses the FIFO ports in one tick *)

(** Byte taken by the output ring buffer this tick (none when the engine does
    not write or the buffer is full). *)
Definition data_pushed (s : USBAnalyzer) : list Z :=
  let q := packet_queue_fsm s in
  if Fifo.accepts (mem_size s) (data_buffer s) (q_data_w_en q)
  then [trunc 8 (q_data_w_data q)] else [].

(** Byte taken by the staging buffer this tick. *)
Definition packet_pushed (s : USBAnalyzer) (i : Inputs) : list Z :=
  let c := capture_drive s i in
  if Fifo.accepts MAX_PACKET_SIZE_BYTES (packet_buffer s) (c_packet_w_en c)
  then [trunc 8 (c_packet_w_data c)] else [].

(** Byte removed from the staging buffer this tick. *)
Definition packet_popped (s : USBAnalyzer) : list Z :=
  if q_packet_r_en (packet_queue_fsm s) then firstn 1 (packet_buffer s) else [].

(** Length offered to the pending-lengths queue this tick (write strobe). *)
Definition length_offered (s : USBAnalyzer) (i : Inputs) : list Z :=
  let c := capture_drive s i in
  if c_length_w_en c then [trunc 16 (c_length_w_data c)] else [].

(** Length taken by the pending-lengths queue this tick. *)
Definition length_pushed (s : USBAnalyzer) (i : Inputs) : list Z :=
  let c := capture_drive s i in
  if Fifo.accepts LENGTH_BUFFER_DEPTH (length_buffer s) (c_length_w_en c)
  then [trunc 16 (c_length_w_data c)] else [].

(** Concatenation of what a per-tick observation yields along a run. *)
Fixpoint log (ev : USBAnalyzer -> Inputs -> list Z) (s : USBAnalyzer) (ins : list Inputs)
  : list Z :=
  match ins with
  | [] => []
  | i :: rest => ev s i ++ log ev (step s i) rest
  end.

Definition data_log := log (fun s _ => data_pushed s).
Definition packet_log := log packet_pushed.
Definition popped_log := log (fun s _ => packet_popped s).
Definition offered_log := log length_offered.
Definition length_log := log length_pushed.

(** ** Input traces *)

(** A tick with the receive channel quiet. *)
Definition quiet (en rdy : bool) : Inputs :=
  {| rx_active := false; rx_valid := false; rx_data := 0;
     capture_enable := en; stream_ready := rdy |}.

(** A tick with the receive channel active and no byte. *)
Definition active (en rdy : bool) : Inputs :=
  {| rx_active := true; rx_valid := false; rx_data := 0;
     capture_enable := en; stream_ready := rdy |}.

(** A tick delivering byte [b]. *)
Definition byte (en rdy : bool) (b : Z) : Inputs :=
  {| rx_active := true; rx_valid := true; rx_data := b;
     capture_enable := en; stream_ready := rdy |}.

(** One receive episode carrying [payload]: the channel goes active, delivers
    the bytes one per tick, and goes inactive. *)
Definition session (rdy : bool) (payload : list Z) : list Inputs :=
  active true rdy :: map (byte true rdy) payload ++ [quiet true rdy].


(** The two machines see the same engine registers and the same queues. *)
Definition same_engine_view (s1 s2 : USBAnalyzer) : Prop :=
  mem_size s1 = mem_size s2 /\ data_buffer s1 = data_buffer s2 /\
  packet_buffer s1 = packet_buffer s2 /\ length_buffer s1 = length_buffer s2 /\
  packet_length s1 = packet_length s2 /\
  packet_transferred s1 = packet_transferred s2 /\
  overrun s1 = overrun s2 /\ packet_queue s1 = packet_queue s2.

(** ** Observations on the inputs *)

(** The receive channel is active, or quiet, on a tick. *)
Definition rx_is_active (i : Inputs) : Prop := rx_active i = true.

Definition rx_is_quiet (i : Inputs) : Prop := rx_active i = false.

(** Number of ticks of a trace on which a byte is reported (active and
    valid). *)
Definition bytes_reported (ins : list Inputs) : Z := zlen (filter byte_received ins).

(** ** Side conditions on runs *)

(** The output ring buffer has fewer than two free bytes in every state the
    run [ins] passes through. *)
Fixpoint no_room_during (s : USBAnalyzer) (ins : list Inputs) : bool :=
  match ins with
  | [] => true
  | i :: rest =>
      (mem_size s <? Fifo.level (data_buffer s) + 2) && no_room_during (step s i) rest
  end.

(** No byte is offered to a full staging buffer along the run. *)
Fixpoint no_byte_refused (s : USBAnalyzer) (ins : list Inputs) : bool :=
  match ins with
  | [] => true
  | i :: rest =>
      (negb (c_packet_w_en (capture_drive s i))
       || Fifo.w_rdy MAX_PACKET_SIZE_BYTES (packet_buffer s))
      && no_byte_refused (step s i) rest
  end.

(** What the front-end offers on this tick is taken: a byte does not meet a
    full staging buffer, a length does not meet a full pending-lengths queue. *)
Definition pushes_taken (s : USBAnalyzer) (i : Inputs) : bool :=
  (negb (c_packet_w_en (capture_drive s i))
   || Fifo.w_rdy MAX_PACKET_SIZE_BYTES (packet_buffer s))
  && (negb (c_length_w_en (capture_drive s i))
      || Fifo.w_rdy LENGTH_BUFFER_DEPTH (length_buffer s)).

(** Every byte and every length the front-end offers along the run is taken
    by its queue. *)
Fixpoint no_push_refused (s : USBAnalyzer) (ins : list Inputs) : bool :=
  match ins with
  | [] => true
  | i :: rest => pushes_taken s i && no_push_refused (step s i) rest
  end.

(** ** Lengths against bytes staged *)

(** Range of a [Signal(16)], and of a byte. *)
Definition word16 (x : Z) : Prop := 0 <= x < 65536.

Definition is_byte (x : Z) : Prop := 0 <= x < 256.

(** Sum of a list of lengths. *)
Definition total (l : list Z) : Z := fold_right Z.add 0 l.

(** Sum of the lengths waiting in the pending-lengths queue. *)
Definition queued_bytes (s : USBAnalyzer) : Z := total (length_buffer s).

(** Bytes of the session being received. *)
Definition in_flight (s : USBAnalyzer) : Z :=
  match capture s with
  | Capture.CAPTURE => captured_packet_length s
  | _ => 0
  end.

(** The lengths held by the machine are covered by the bytes staged. *)
Record counted (s : USBAnalyzer) : Prop := {
  cnt_length : word16 (packet_length s);
  cnt_captured : word16 (captured_packet_length s);
  cnt_queue : Forall word16 (length_buffer s);
  cnt_staged : queued_bytes s + packet_length s + in_flight s
               <= Fifo.level (packet_buffer s)
}.

(** ** Records, and what is still to be written *)

(** The record written for a session with payload [p]: the length, high byte
    first, then the payload. *)
Definition record_bytes (p : list Z) : list Z :=
  slice (zlen p) 8 16 :: slice (zlen p) 0 8 :: p.

(** The output stream of the sessions [ps]. *)
Definition stream (ps : list (list Z)) : list Z := concat (map record_bytes ps).

(** Size of the output stream of sessions with the lengths [lens]. *)
Definition stream_size (lens : list Z) : Z := total (map (fun len => len + 2) lens).

(** Header bytes the engine has still to write for its working record. *)
Definition header_due (s : USBAnalyzer) : list Z :=
  let len := packet_length s in
  match packet_queue s with
  | PacketQueue.INSPECT_PACKET => [slice len 8 16; slice len 0 8]
  | PacketQueue.TRANSFER_PACKET =>
      if packet_transferred s =? 0 then [slice len 8 16; slice len 0 8]
      else if packet_transferred s =? 1 then [slice len 0 8]
      else []
  | _ => []
  end.

(** Records cut out of [bytes] by the lengths [lens], in order. *)
Fixpoint frames (lens : list Z) (bytes : list Z) : list Z :=
  match lens with
  | [] => []
  | len :: rest =>
      slice len 8 16 :: slice len 0 8 :: firstn (Z.to_nat len) bytes
      ++ frames rest (skipn (Z.to_nat len) bytes)
  end.

(** Bytes still to be written to the output ring buffer for the record being
    transferred and for the records whose lengths are queued. *)
Definition pending (s : USBAnalyzer) : list Z :=
  let n := Z.to_nat (packet_length s) in
  header_due s ++ firstn n (packet_buffer s)
  ++ frames (length_buffer s) (skipn n (packet_buffer s)).

(** Ticks the engine still needs to write out the record in transfer and the
    records queued, when no further length arrives. *)
Definition ticks_left (s : USBAnalyzer) : Z :=
  total (map (fun len => len + 6) (length_buffer s)) +
  match packet_queue s with
  | PacketQueue.POP_LENGTH => -1
  | PacketQueue.INSPECT_PACKET => packet_length s + 4
  | PacketQueue.TRANSFER_PACKET =>
      packet_length s +
      (if packet_transferred s =? 0 then 3
       else if packet_transferred s =? 1 then 2 else 1)
  | _ => 0
  end.

(** ** A tick in two parts *)

(** The engine's and the consumer's part of a tick. *)
Definition engine_tick (s : USBAnalyzer) (i : Inputs) : USBAnalyzer :=
  let q := packet_queue_fsm s in
  {| mem_size := mem_size s;
     data_buffer := data_buffer (step s i);
     packet_buffer := if q_packet_r_en q then tl (packet_buffer s) else packet_buffer s;
     length_buffer := if q_length_r_en q then tl (length_buffer s) else length_buffer s;
     captured_packet_length := captured_packet_length s;
     packet_length := q_packet_length q;
     packet_transferred := q_packet_transferred q;
     overrun := q_overrun q;
     capture := capture s;
     packet_queue := q_next q |}.

(** The front-end's part of the tick that starts in [s0], applied after the
    engine's part [s]. *)
Definition capture_tick (s0 s : USBAnalyzer) (i : Inputs) : USBAnalyzer :=
  {| mem_size := mem_size s;
     data_buffer := data_buffer s;
     packet_buffer := packet_buffer s ++ packet_pushed s0 i;
     length_buffer := length_buffer s ++ length_pushed s0 i;
     captured_packet_length := c_captured_packet_length (capture_drive s0 i);
     packet_length := packet_length s;
     packet_transferred := packet_transferred s;
     overrun := overrun s;
     capture := c_next (capture_drive s0 i);
     packet_queue := packet_queue s |}.

(** ** The state as a pipeline of sessions *)

(** The state [s] seen as: [out] written so far, the sessions [ps] completed
    so far, the rest [cur] of the payload being transferred, the payloads
    [queued] whose lengths wait in the queue, and the bytes [fly] of the
    session being received. *)
Record tracks (s : USBAnalyzer) (out : list Z) (ps : list (list Z))
  (cur : list Z) (queued : list (list Z)) (fly : list Z) : Prop := {
  tr_staging : packet_buffer s = cur ++ concat queued ++ fly;
  tr_lengths : length_buffer s = map zlen queued;
  tr_working : packet_length s = zlen cur;
  tr_flight : match capture s with
              | Capture.CAPTURE => captured_packet_length s = zlen fly
              | _ => fly = []
              end;
  tr_stream : out ++ header_due s ++ cur ++ stream queued = stream ps;
  tr_sizes : Forall (fun p => zlen p < 65536) queued;
  tr_cur_size : zlen cur < 65536;
  tr_fly_size : zlen fly < 65536;
  tr_bytes : Forall is_byte (packet_buffer s);
  tr_phase : match packet_queue s with
             | PacketQueue.IDLE => cur = []
             | PacketQueue.POP_LENGTH => cur = [] /\ queued <> []
             | PacketQueue.INSPECT_PACKET => True
             | PacketQueue.TRANSFER_PACKET =>
                 0 <= packet_transferred s /\
                 packet_transferred s + packet_length s <= 65537 /\
                 Fifo.level (data_buffer s) + zlen (header_due s) + packet_length s
                 <= mem_size s
             | _ => False
             end;
  tr_latch : overrun s = false;
  tr_level : Fifo.level (data_buffer s) <= zlen out
}.

(** ** Example runs *)

(** After reset and one quiet tick with capture enabled: both FSMs idle. *)
Definition armed : USBAnalyzer := step (reset 8) (quiet true false).

(** Reaching the overrun decision: capacity 8, a first record of 5 bytes fills
    7 bytes of the output ring buffer, the consumer reads nothing, and a second
    record of 3 bytes is queued and popped. *)
Definition overrun_trace : list Inputs :=
  quiet true false :: session false [16; 17; 18; 19; 20]
  ++ repeat (quiet true false) 13
  ++ session false [1; 2; 3] ++ repeat (quiet true false) 2.

(** The state in which the second record is inspected. *)
Definition inspecting : USBAnalyzer := run (reset 8) overrun_trace.

(** A state at progress step 0 of TRANSFER_PACKET, for a record of one byte. *)
Definition transferring : USBAnalyzer :=
  run (reset 8) (quiet true false :: session false [1] ++ repeat (quiet true false) 3).


(** The scenario of section 8: capacity 8, one session with payload
    0xAA, 0xBB, 0xCC. *)
Definition one_session : list Inputs :=
  quiet true false :: session false [170; 187; 204] ++ repeat (quiet true false) 9.

(** A payload of [n] bytes 0, 1, 2, ... (modulo 256). *)
Definition ramp (n : nat) : list Z := map (fun k => Z.of_nat k mod 256) (seq 0 n).

(** Two sessions of 1024 bytes, one right after the other, with a consumer
    that reads on every tick, followed by [tail] quiet ticks. *)
Definition back_to_back (tail : nat) : list Inputs :=
  quiet true true :: session true (ramp 1024) ++ session true (ramp 1024)
  ++ repeat (quiet true true) tail.

(** ** The consumer side, and what leaves the queues *)

(** Byte handed to the consumer this tick: the stream shows [valid] and the
    consumer asserts [ready]. *)
Definition consumed (s : USBAnalyzer) (i : Inputs) : list Z :=
  if stream_valid s && stream_ready i then [stream_payload s] else [].

(** Length the engine takes from the pending-lengths queue this tick. *)
Definition length_popped (s : USBAnalyzer) : list Z :=
  if q_length_r_en (packet_queue_fsm s) then firstn 1 (length_buffer s) else [].

(** Byte the front-end offers to the staging buffer this tick, when the
    [sampling] output pulses. *)
Definition sampled (s : USBAnalyzer) (i : Inputs) : list Z :=
  if sampling s i then [trunc 8 (rx_data i)] else [].

(** What the consumer is handed, what the engine takes from the
    pending-lengths queue, and what the front-end offers, along a run. *)
Definition consumed_log := log consumed.
Definition length_popped_log := log (fun s _ => length_popped s).
Definition sampled_log := log sampled.

(** The two ticks carry the same receive inputs and the same
    [capture_enable]; the consumer's [ready] may differ. *)
Definition same_rx (i1 i2 : Inputs) : Prop :=
  rx_active i1 = rx_active i2 /\ rx_valid i1 = rx_valid i2 /\
  rx_data i1 = rx_data i2 /\ capture_enable i1 = capture_enable i2.

(** ** States reached from reset *)

(** What holds of the engine in every state reached from reset, whatever the
    inputs and the configured depth. *)
Record engine_sound (s : USBAnalyzer) : Prop := {
  es_queue : Forall word16 (length_buffer s);
  es_length : word16 (packet_length s);
  es_progress : 0 <= packet_transferred s <= 65538;
  es_phase :
    match packet_queue s with
    | PacketQueue.POP_LENGTH => length_buffer s <> []
    | PacketQueue.TRANSFER_PACKET =>
        packet_transferred s + packet_length s <= 65537 /\
        Fifo.level (data_buffer s)
        + (if packet_transferred s =? 0 then 2
           else if packet_transferred s =? 1 then 1 else 0)
        + packet_length s <= mem_size s
    | PacketQueue.OVERRUN => packet_transferred s = 0
    | PacketQueue.CLEAR_OVERRUN =>
        overrun s = true /\
        packet_transferred s <= 2 /\
        Fifo.level (data_buffer s) + 2 <= mem_size s + packet_transferred s
    | _ => True
    end
}.

(** Ticks the engine spends in TRANSFER_PACKET or CLEAR_OVERRUN before it is
    back in IDLE: the header or marker bytes still due, the bytes of the
    working length, and the closing tick. *)
Definition busy (s : USBAnalyzer) : Z :=
  match packet_queue s with
  | PacketQueue.TRANSFER_PACKET | PacketQueue.CLEAR_OVERRUN =>
      packet_length s +
      (if packet_transferred s =? 0 then 3
       else if packet_transferred s =? 1 then 2 else 1)
  | _ => 0
  end.

(** No overrun so far, and the output ring buffer together with what the
    engine has still to write of its working record is covered by the records
    of the lengths [taken] from the pending-lengths queue. *)
Definition calm (s : USBAnalyzer) (taken : list Z) : Prop :=
  overrun s = false /\
  match packet_queue s with
  | PacketQueue.OVERRUN | PacketQueue.CLEAR_OVERRUN => False
  | PacketQueue.INSPECT_PACKET =>
      Fifo.level (data_buffer s) + packet_length s + 2 <= stream_size taken
  | PacketQueue.TRANSFER_PACKET =>
      Fifo.level (data_buffer s) + packet_length s
      + (if packet_transferred s =? 0 then 2
         else if packet_transferred s =? 1 then 1 else 0) <= stream_size taken
  | _ => Fifo.level (data_buffer s) <= stream_size taken
  end.

(** ** The grammar of the output *)

(** A whole number of frames of the output grammar: records (length high,
    length low, that many payload bytes) and overrun sentinels. *)
Inductive framed : list Z -> Prop :=
| framed_nil : framed []
| framed_record l len payload :
    framed l -> word16 len -> zlen payload = len -> Forall is_byte payload ->
    framed (l ++ slice len 8 16 :: slice len 0 8 :: payload)
| framed_sentinel l :
    framed l -> framed (l ++ [255; 255]).

(** The frame the engine is in the middle of writing. *)
Definition frame_begun (s : USBAnalyzer) (partial : list Z) : Prop :=
  match packet_queue s with
  | PacketQueue.TRANSFER_PACKET =>
      (packet_transferred s = 0 /\ partial = []) \/
      (packet_transferred s = 1 /\ partial = [slice (packet_length s) 8 16]) \/
      (2 <= packet_transferred s /\
       exists len written,
         word16 len /\ Forall is_byte written /\
         zlen written + packet_length s = len /\
         partial = slice len 8 16 :: slice len 0 8 :: written)
  | PacketQueue.CLEAR_OVERRUN =>
      (packet_transferred s = 1 /\ partial = [255]) \/
      (packet_transferred s <> 1 /\ partial = [])
  | _ => partial = []
  end.

(** ** Further example runs *)

(** The engine about to pop the length of a one-byte session. *)
Definition popping : USBAnalyzer :=
  run (reset 8) (quiet true false :: session false [1] ++ [quiet true false]).

(** The engine inspecting that length, one tick later. *)
Definition admitted : USBAnalyzer := step popping (quiet true false).

(** The run that leaves the engine held in OVERRUN: the output ring buffer
    holds 7 of its 8 bytes and the consumer has read nothing. *)
Definition held_trace : list Inputs := overrun_trace ++ [quiet true false].

(** The engine in the middle of the payload of the second of two back-to-back
    sessions of 1024 bytes, with the staging buffer already empty: the staging
    buffer had refused two bytes of that session. *)
Definition starved : USBAnalyzer :=
  run (reset 65536) (firstn 3084 (back_to_back 1042)).






(** Receive inputs arriving while capture is enabled in the middle of a
    packet, and then disabled again. *)
Definition mid_packet : list Inputs :=
  [byte true false 1; byte true false 2; quiet false false; active true true].

(** * Properties *)

(** ** Tactics *)

Ltac break_if :=
  match goal with
  | |- context [if ?b then _ else _] => destruct b eqn:?
  | H : context [if ?b then _ else _] |- _ => destruct b eqn:?
  end.

Ltac bool_to_Z :=
  repeat match goal with
  | H : negb _ = true |- _ => apply negb_true_iff in H
  | H : negb _ = false |- _ => apply negb_false_iff in H
  | H : (_ =? _) = true |- _ => apply Z.eqb_eq in H
  | H : (_ =? _) = false |- _ => apply Z.eqb_neq in H
  | H : (_ <? _) = true |- _ => apply Z.ltb_lt in H
  | H : (_ <? _) = false |- _ => apply Z.ltb_ge in H
  | H : (_ <=? _) = true |- _ => apply Z.leb_le in H
  | H : (_ <=? _) = false |- _ => apply Z.leb_gt in H
  end.

Ltac unfold_step :=
  unfold step, capture_drive, packet_queue_fsm, capture_fsm in *.

Ltac engine_step H :=
  unfold step, data_pushed, packet_popped, Fifo.accepts, packet_queue_fsm;
  rewrite H; simpl.

Ltac engine_eval Hq :=
  unfold engine_tick, data_pushed, Fifo.accepts, Fifo.w_rdy, packet_queue_fsm;
  rewrite Hq; simpl.

(** ** Signals and lists *)

Lemma trunc_add_l w a b : trunc w (trunc w a + b) = trunc w (a + b).
Proof. unfold trunc. apply Zplus_mod_idemp_l. Qed.

Lemma trunc_small w x : 0 <= x < 2 ^ w -> trunc w x = x.
Proof. intros H. unfold trunc. now apply Z.mod_small. Qed.

Lemma trunc16_word x : word16 (trunc 16 x).
Proof.
  unfold word16, trunc. change (2 ^ 16) with 65536.
  apply Z.mod_pos_bound. lia.
Qed.

Lemma trunc8_is_byte x : is_byte (trunc 8 x).
Proof. unfold is_byte, trunc. change (2 ^ 8) with 256. apply Z.mod_pos_bound. lia. Qed.

Lemma trunc8_byte b : is_byte b -> trunc 8 b = b.
Proof. intros H. apply trunc_small. exact H. Qed.

Lemma slice_div_mod x lo hi :
  0 <= lo <= hi -> slice x lo hi = (x / 2 ^ lo) mod 2 ^ (hi - lo).
Proof.
  intros H. unfold slice.
  rewrite Z.shiftr_div_pow2 by lia.
  replace (2 ^ (hi - lo) - 1) with (Z.ones (hi - lo)) by (rewrite Z.ones_equiv; lia).
  apply Z.land_ones; lia.
Qed.

(** For a 16-bit length, [len[8:16]] is the high byte and [len[0:8]] the low
    byte. *)
Lemma length_bytes len :
  0 <= len < 65536 ->
  len = 256 * slice len 8 16 + slice len 0 8 /\
  0 <= slice len 8 16 < 256 /\ 0 <= slice len 0 8 < 256.
Proof.
  intros H. rewrite !slice_div_mod by lia.
  change (2 ^ 8) with 256. change (2 ^ (16 - 8)) with 256.
  change (2 ^ 0) with 1. change (2 ^ (8 - 0)) with 256.
  rewrite Z.div_1_r.
  assert (len / 256 < 256) by (apply Z.div_lt_upper_bound; lia).
  assert (0 <= len / 256) by (apply Z.div_pos; lia).
  rewrite (Z.mod_small (len / 256)) by lia.
  pose proof (Z.div_mod len 256 ltac:(lia)).
  pose proof (Z.mod_pos_bound len 256 ltac:(lia)).
  lia.
Qed.

Lemma slice_byte x lo : 0 <= lo -> is_byte (slice x lo (lo + 8)).
Proof.
  intros H. rewrite slice_div_mod by lia.
  replace (lo + 8 - lo) with 8 by lia. change (2 ^ 8) with 256.
  apply Z.mod_pos_bound. lia.
Qed.

Lemma zlen_cons {A} (x : A) l : zlen (x :: l) = 1 + zlen l.
Proof. unfold zlen. simpl length. lia. Qed.

Lemma zlen_app {A} (a b : list A) : zlen (a ++ b) = zlen a + zlen b.
Proof. unfold zlen. rewrite length_app. lia. Qed.

Lemma zlen_nonneg {A} (l : list A) : 0 <= zlen l.
Proof. unfold zlen. lia. Qed.

Lemma zlen_tl {A} (l : list A) : zlen (tl l) <= zlen l.
Proof. destruct l; simpl tl; [lia | rewrite zlen_cons; lia]. Qed.

Lemma zlen_tl_pos {A} (l : list A) : 0 < zlen l -> zlen (tl l) = zlen l - 1.
Proof. destruct l; simpl tl; [unfold zlen; simpl; lia | rewrite zlen_cons; lia]. Qed.

Lemma total_app a b : total (a ++ b) = total a + total b.
Proof. unfold total. induction a; simpl; lia. Qed.

Lemma total_tl l : total (tl l) = total l - hd 0 l.
Proof. destruct l; simpl; lia. Qed.

Lemma total_nonneg l : Forall word16 l -> 0 <= total l.
Proof. unfold word16. induction 1; simpl; lia. Qed.

Lemma hd_word l : Forall word16 l -> word16 (hd 0 l).
Proof. destruct 1; simpl; auto. unfold word16; lia. Qed.

Lemma Forall_tl {A} (P : A -> Prop) l : Forall P l -> Forall P (tl l).
Proof. destruct 1; simpl; auto. Qed.

Lemma firstn_exact {A} (p r : list A) : firstn (length p) (p ++ r) = p.
Proof. induction p; simpl; congruence. Qed.

Lemma skipn_exact {A} (p r : list A) : skipn (length p) (p ++ r) = r.
Proof. induction p; simpl; congruence. Qed.

Lemma to_nat_zlen {A} (p : list A) : Z.to_nat (zlen p) = length p.
Proof. unfold zlen. apply Nat2Z.id. Qed.

Lemma head_byte b l r : Forall is_byte ((b :: l) ++ r) -> is_byte b.
Proof. intros H. now inversion H. Qed.

(** ** Runs and logs *)

Lemma run_app s a b : run s (a ++ b) = run (run s a) b.
Proof. revert s; induction a as [|i a IH]; intros s; simpl; auto. Qed.

Lemma run_cons s i r : run s (i :: r) = run (step s i) r.
Proof. reflexivity. Qed.

Lemma log_app ev s a b : log ev s (a ++ b) = log ev s a ++ log ev (run s a) b.
Proof.
  revert s; induction a as [|i a IH]; intros s; simpl; auto.
  now rewrite IH, app_assoc.
Qed.

Lemma log_cons ev s i r : log ev s (i :: r) = ev s i ++ log ev (step s i) r.
Proof. reflexivity. Qed.

Lemma mem_size_step s i : mem_size (step s i) = mem_size s.
Proof. reflexivity. Qed.

Lemma mem_size_run s ins : mem_size (run s ins) = mem_size s.
Proof. revert s; induction ins as [|i r IH]; intros s; simpl; auto. now rewrite IH. Qed.

(** ** Queue contents across a tick *)

Lemma packet_buffer_step s i :
  packet_buffer (step s i) =
  (if q_packet_r_en (packet_queue_fsm s) then tl (packet_buffer s) else packet_buffer s)
  ++ packet_pushed s i.
Proof. reflexivity. Qed.

Lemma length_buffer_step s i :
  length_buffer (step s i) =
  (if q_length_r_en (packet_queue_fsm s) then tl (length_buffer s) else length_buffer s)
  ++ length_pushed s i.
Proof. reflexivity. Qed.

Lemma data_buffer_step s i :
  data_buffer (step s i) =
  (if stream_ready i then tl (data_buffer s) else data_buffer s) ++ data_pushed s.
Proof. reflexivity. Qed.

Lemma data_level_step s i :
  Fifo.level (data_buffer (step s i)) <= Fifo.level (data_buffer s) + zlen (data_pushed s).
Proof.
  rewrite data_buffer_step. unfold Fifo.level. rewrite zlen_app.
  destruct (stream_ready i); [pose proof (zlen_tl (data_buffer s))|]; lia.
Qed.

Lemma step_split s i : step s i = capture_tick s (engine_tick s i) i.
Proof. reflexivity. Qed.

(** ** Construction (C6) *)

Lemma init_raises_iff_odd mem_depth :
  init mem_depth = inl mem_depth_must_be_a_power_of_2 <-> mem_depth mod 2 <> 0.
Proof.
  unfold init. destruct (mem_depth mod 2 =? 0) eqn:E; simpl.
  - apply Z.eqb_eq in E. split; [discriminate | congruence].
  - apply Z.eqb_neq in E. split; auto.
Qed.

Lemma six_not_power_of_two : ~ is_power_of_two 6.
Proof.
  intros [k [Hk E]].
  destruct (Z_lt_le_dec k 3) as [Hlt|Hge].
  - assert (k = 0 \/ k = 1 \/ k = 2) as [ -> | [ -> | -> ] ] by lia; discriminate.
  - pose proof (Z.pow_le_mono_r 2 3 k ltac:(lia) Hge) as Hp.
    change (2 ^ 3) with 8 in Hp. lia.
Qed.

(** C6, evaluated on the code: [__init__] accepts [mem_depth = 6], which is
    even and not a power of two; the check it performs is on parity only. *)
Theorem init_accepts_six :
  init 6 = inr {| cfg_mem_size := 6 |} /\ ~ is_power_of_two 6.
Proof. split; [reflexivity | exact six_not_power_of_two]. Qed.

(** ** The overrun latch (C5) *)

Lemma overrun_step s i :
  overrun (step s i) =
  match packet_queue s with PacketQueue.OVERRUN => true | _ => overrun s end.
Proof. unfold_step; simpl. destruct (packet_queue s); repeat break_if; reflexivity. Qed.

Lemma overrun_step_mono s i : overrun s = true -> overrun (step s i) = true.
Proof. rewrite overrun_step. destruct (packet_queue s); auto. Qed.

Lemma overrun_run_mono s ins : overrun s = true -> overrun (run s ins) = true.
Proof.
  revert s; induction ins as [|i r IH]; intros s H; simpl; auto.
  apply IH, overrun_step_mono, H.
Qed.

(** C5: once the overrun flag is true, it is true after every further
    sequence of ticks, whatever the inputs. *)
Theorem overrun_sticky s ins : overrun s = true -> overrun (run s ins) = true.
Proof. apply overrun_run_mono. Qed.

Lemma overrun_sticky_witness :
  overrun (run (run inspecting (repeat (quiet true false) 3))
               (repeat (quiet true true) 20 ++ session true [] ++ repeat (quiet true true) 8))
  = true.
Proof. apply overrun_sticky. reflexivity. Defined.

(** ** Status outputs (C9) *)

(** C9: [idle] is true exactly in the capture FSM's IDLE state (so not in
    START), [capturing] exactly in CAPTURE, and the two are never true
    together. *)
Theorem status_exclusive s :
  (idle s = true <-> capture s = Capture.IDLE) /\
  (capturing s = true <-> capture s = Capture.CAPTURE) /\
  (capture s = Capture.START -> idle s = false /\ capturing s = false) /\
  ~ (idle s = true /\ capturing s = true).
Proof.
  unfold idle, capturing.
  destruct (capture s); repeat split; intros; try discriminate; intuition congruence.
Qed.

Lemma status_exclusive_witness :
  capture armed = Capture.IDLE /\ idle armed = true /\ capturing armed = false.
Proof.
  destruct (status_exclusive armed) as (A & _ & _ & _).
  assert (H : capture armed = Capture.IDLE) by reflexivity.
  split; [exact H|]. split; [exact (proj2 A H) | reflexivity].
Defined.

(** ** Separation of the two FSMs (C10) *)

Lemma data_write_states s :
  q_data_w_en (packet_queue_fsm s) = true ->
  packet_queue s = PacketQueue.TRANSFER_PACKET \/
  packet_queue s = PacketQueue.CLEAR_OVERRUN.
Proof.
  unfold packet_queue_fsm. destruct (packet_queue s); simpl; auto; discriminate.
Qed.

Lemma engine_view_drive s1 s2 :
  same_engine_view s1 s2 -> packet_queue_fsm s1 = packet_queue_fsm s2.
Proof.
  intros (Hm & Hd & Hp & Hl & Hpl & Hpt & Ho & Hq).
  unfold packet_queue_fsm. now rewrite Hm, Hd, Hp, Hl, Hpl, Hpt, Ho, Hq.
Qed.

(** C10: the output ring buffer is written only in TRANSFER_PACKET and
    CLEAR_OVERRUN; the overrun latch changes only in OVERRUN; what the engine
    does in a tick (its next registers, the next output ring buffer, the bytes
    it pushes) is the same in two states that agree on the engine registers
    and the queues, whatever the capture FSM's state, its counter and the
    receive inputs; and the capture FSM's next state and counter are the same
    in two states that agree on them, whatever the engine is doing. *)
Theorem fsm_frame s1 s2 i1 i2 :
  (data_pushed s1 <> [] ->
     packet_queue s1 = PacketQueue.TRANSFER_PACKET \/
     packet_queue s1 = PacketQueue.CLEAR_OVERRUN) /\
  (data_buffer (step s1 i1) <> Fifo.tick 8 (mem_size s1) (data_buffer s1) false 0 (stream_ready i1) ->
     packet_queue s1 = PacketQueue.TRANSFER_PACKET \/
     packet_queue s1 = PacketQueue.CLEAR_OVERRUN) /\
  (overrun (step s1 i1) <> overrun s1 -> packet_queue s1 = PacketQueue.OVERRUN) /\
  (same_engine_view s1 s2 -> stream_ready i1 = stream_ready i2 ->
     data_pushed s1 = data_pushed s2 /\
     data_buffer (step s1 i1) = data_buffer (step s2 i2) /\
     overrun (step s1 i1) = overrun (step s2 i2) /\
     packet_queue (step s1 i1) = packet_queue (step s2 i2) /\
     packet_length (step s1 i1) = packet_length (step s2 i2) /\
     packet_transferred (step s1 i1) = packet_transferred (step s2 i2)) /\
  (capture s1 = capture s2 -> captured_packet_length s1 = captured_packet_length s2 ->
     capture (step s1 i1) = capture (step s2 i1) /\
     captured_packet_length (step s1 i1) = captured_packet_length (step s2 i1)).
Proof.
  split; [|split; [|split; [|split]]].
  - intros H. apply data_write_states.
    unfold data_pushed, Fifo.accepts in H.
    destruct (q_data_w_en (packet_queue_fsm s1)); auto.
  - intros H. apply data_write_states.
    destruct (q_data_w_en (packet_queue_fsm s1)) eqn:E; auto.
    exfalso; apply H. unfold step; simpl. unfold Fifo.tick, Fifo.accepts.
    now rewrite E.
  - rewrite overrun_step. destruct (packet_queue s1); congruence.
  - intros H Hr. pose proof (engine_view_drive _ _ H) as E.
    destruct H as (Hm & Hd & _).
    unfold data_pushed, step; simpl. rewrite E, Hm, Hd, Hr. repeat split.
  - intros H H0. unfold step, capture_drive; simpl. now rewrite H, H0.
Qed.

Lemma fsm_frame_witness :
  data_pushed transferring <> [] /\
  (packet_queue transferring = PacketQueue.TRANSFER_PACKET \/
   packet_queue transferring = PacketQueue.CLEAR_OVERRUN).
Proof.
  assert (H : data_pushed transferring <> []) by (vm_compute; discriminate).
  split; [exact H|].
  exact (proj1 (fsm_frame transferring transferring (quiet true false) (quiet true false)) H).
Defined.

(** ** The capture front-end *)

(** While the channel stays active the front-end stays in CAPTURE, offers no
    length, and its counter grows by the number of bytes reported, whatever
    [capture_enable] does. *)
Lemma capture_body body : forall s,
  capture s = Capture.CAPTURE ->
  Forall rx_is_active body ->
  capture (run s body) = Capture.CAPTURE /\
  trunc 16 (captured_packet_length (run s body)) =
    trunc 16 (captured_packet_length s + bytes_reported body) /\
  offered_log s body = [] /\ length_log s body = [].
Proof.
  induction body as [|i r IH]; intros s Hc Hall.
  - simpl. unfold bytes_reported; simpl. rewrite Z.add_0_r. auto.
  - inversion Hall as [|? ? Ha Hr]; subst. unfold rx_is_active in Ha.
    assert (Hc' : capture (step s i) = Capture.CAPTURE).
    { unfold_step; simpl. rewrite Hc; simpl. now rewrite Ha. }
    destruct (IH (step s i) Hc' Hr) as (E1 & E2 & E3 & E4).
    simpl run. split; [exact E1|]. split.
    + rewrite E2. unfold bytes_reported. simpl filter.
      unfold step at 1, capture_drive, capture_fsm; simpl. rewrite Hc; simpl.
      destruct (byte_received i).
      * rewrite zlen_cons, trunc_add_l. f_equal. lia.
      * reflexivity.
    + unfold offered_log, length_log in *. simpl. rewrite E3, E4.
      unfold length_offered, length_pushed, Fifo.accepts, capture_drive, capture_fsm.
      rewrite Hc; simpl. now rewrite Ha.
Qed.

(** When the channel goes inactive in CAPTURE the front-end offers its counter
    to the pending-lengths queue and returns to IDLE. *)
Lemma capture_end s e :
  capture s = Capture.CAPTURE -> rx_active e = false ->
  capture (step s e) = Capture.IDLE /\
  length_offered s e = [trunc 16 (captured_packet_length s)] /\
  length_pushed s e =
    (if Fifo.w_rdy LENGTH_BUFFER_DEPTH (length_buffer s)
     then [trunc 16 (captured_packet_length s)] else []) /\
  packet_pushed s e = [].
Proof.
  intros Hc He.
  unfold step, length_offered, length_pushed, packet_pushed, Fifo.accepts,
    capture_drive, capture_fsm, byte_received.
  rewrite Hc; simpl. rewrite He; simpl. rewrite andb_false_r. auto.
Qed.

(** A whole session seen from CAPTURE. *)
Lemma capture_session s body e :
  capture s = Capture.CAPTURE ->
  Forall rx_is_active body -> rx_active e = false ->
  capture (run s body) = Capture.CAPTURE /\
  capture (run s (body ++ [e])) = Capture.IDLE /\
  offered_log s (body ++ [e]) =
    [trunc 16 (captured_packet_length s + bytes_reported body)] /\
  length_log s (body ++ [e]) =
    (if Fifo.w_rdy LENGTH_BUFFER_DEPTH (length_buffer (run s body))
     then [trunc 16 (captured_packet_length s + bytes_reported body)] else []).
Proof.
  intros Hc Hall He.
  destruct (capture_body body s Hc Hall) as (E1 & E2 & E3 & E4).
  destruct (capture_end (run s body) e E1 He) as (F1 & F2 & F3 & _).
  split; [exact E1|].
  rewrite run_app. unfold offered_log, length_log in *. rewrite !log_app.
  rewrite E3, E4. simpl. rewrite F2, F3, E2, !app_nil_r. auto.
Qed.



(** ** Receive episodes (C3) *)

(** The detection tick: in IDLE with capture enabled and the channel active,
    the counter is cleared and CAPTURE is entered; nothing is written. *)
Lemma idle_detect s d :
  capture s = Capture.IDLE -> capture_enable d = true -> rx_active d = true ->
  capture (step s d) = Capture.CAPTURE /\
  captured_packet_length (step s d) = 0 /\
  length_offered s d = [] /\ length_pushed s d = [] /\ packet_pushed s d = [].
Proof.
  intros Hc He Ha.
  unfold step, length_offered, length_pushed, packet_pushed, Fifo.accepts,
    capture_drive, capture_fsm.
  rewrite Hc; simpl. rewrite He, Ha; simpl. auto.
Qed.

(** C3, as the code has it: an episode is detected in IDLE with capture
    enabled on a tick [d] with the channel active, lasts while the channel
    stays active ([body]) and ends on the first inactive tick [e].  Over the
    episode the front-end offers exactly one length to the pending-lengths
    queue, on the tick [e]; the queue takes it when it is not full on that
    tick; its value is the number of ticks after the detection tick on which a
    byte was reported, as a 16-bit count.  The front-end is in CAPTURE from the
    tick after [d] to the tick [e] and back in IDLE after it. *)
Theorem capture_episode s d body e :
  capture s = Capture.IDLE ->
  capture_enable d = true -> rx_active d = true ->
  Forall rx_is_active body -> rx_active e = false ->
  offered_log s (d :: body ++ [e]) = [trunc 16 (bytes_reported body)] /\
  length_log s (d :: body ++ [e]) =
    (if Fifo.w_rdy LENGTH_BUFFER_DEPTH (length_buffer (run s (d :: body)))
     then [trunc 16 (bytes_reported body)] else []) /\
  capture (run s (d :: body)) = Capture.CAPTURE /\
  capture (run s (d :: body ++ [e])) = Capture.IDLE /\
  (bytes_reported body = 0 -> offered_log s (d :: body ++ [e]) = [0]).
Proof.
  intros Hc He Ha Hall Hend.
  destruct (idle_detect s d Hc He Ha) as (D1 & D2 & D3 & D4 & _).
  destruct (capture_session (step s d) body e D1 Hall Hend) as (S1 & S2 & S3 & S4).
  rewrite D2 in S3, S4. simpl in S3, S4.
  assert (Ho : offered_log s (d :: body ++ [e]) = [trunc 16 (bytes_reported body)]).
  { unfold offered_log in *. simpl. now rewrite D3, S3. }
  split; [exact Ho|]. split; [|split; [|split]].
  - unfold length_log in *. simpl. now rewrite D4, S4.
  - exact S1.
  - exact S2.
  - intros Hz. rewrite Ho, Hz. reflexivity.
Qed.

(** C3 as stated fails on the detection tick: here the channel reports an
    active and valid byte on the one tick of the episode, and the length that
    reaches the pending-lengths queue is 0. *)
Lemma episode_first_byte_not_counted :
  let d := byte true false 170 in
  let e := quiet true false in
  let s := step (reset 8) (quiet true false) in
  capture s = Capture.IDLE /\
  bytes_reported [d] = 1 /\
  length_log s [d; e] = [0] /\
  packet_log s [d; e] = [].
Proof. repeat split. Qed.

Lemma capture_episode_witness :
  let body := [byte true false 170; byte false false 187] in
  capture armed = Capture.IDLE /\ Forall rx_is_active body /\
  offered_log armed (active true false :: body ++ [quiet true false])
  = [trunc 16 (bytes_reported body)] /\
  bytes_reported body = 2.
Proof.
  intros body.
  assert (Hb : Forall rx_is_active body) by (repeat constructor).
  split; [reflexivity|]. split; [exact Hb|]. split; [|reflexivity].
  exact (proj1 (capture_episode armed (active true false) body (quiet true false)
                  eq_refl eq_refl eq_refl Hb eq_refl)).
Defined.

(** ** The overrun path (C2) *)

Lemma inspect_overflow s i :
  packet_queue s = PacketQueue.INSPECT_PACKET ->
  mem_size s < Fifo.level (data_buffer s) + packet_length s + 2 ->
  packet_queue (step s i) = PacketQueue.OVERRUN /\
  packet_transferred (step s i) = 0 /\
  packet_length (step s i) = packet_length s /\
  data_pushed s = [] /\ packet_popped s = [] /\
  packet_buffer (step s i) = packet_buffer s ++ packet_pushed s i.
Proof.
  intros Hq Hov. rewrite packet_buffer_step. engine_step Hq.
  apply Z.ltb_lt in Hov. rewrite Hov. auto 12.
Qed.

Lemma overrun_waits wait : forall s,
  packet_queue s = PacketQueue.OVERRUN ->
  no_room_during s wait = true ->
  packet_queue (run s wait) = PacketQueue.OVERRUN /\
  packet_transferred (run s wait) = packet_transferred s /\
  packet_length (run s wait) = packet_length s /\
  data_log s wait = [] /\ popped_log s wait = [] /\
  packet_buffer (run s wait) = packet_buffer s ++ packet_log s wait.
Proof.
  induction wait as [|i r IH]; intros s Hq Hn.
  - simpl. rewrite app_nil_r. auto 12.
  - simpl in Hn. apply andb_prop in Hn. destruct Hn as [Hfull Hn].
    assert (Z.leb (Fifo.level (data_buffer s) + 2) (mem_size s) = false) as Hle.
    { apply Z.leb_gt. now apply Z.ltb_lt. }
    assert (Hs : packet_queue (step s i) = PacketQueue.OVERRUN /\
                 packet_transferred (step s i) = packet_transferred s /\
                 packet_length (step s i) = packet_length s /\
                 data_pushed s = [] /\ packet_popped s = [] /\
                 packet_buffer (step s i) = packet_buffer s ++ packet_pushed s i).
    { rewrite packet_buffer_step. engine_step Hq. rewrite Hle. auto 12. }
    destruct Hs as (A & B & C & D & E & F).
    destruct (IH (step s i) A Hn) as (A' & B' & C' & D' & E' & F').
    unfold data_log, popped_log, packet_log in *. simpl.
    rewrite A', B', C', D', E', F', B, C, D, E, F, <- app_assoc. auto 12.
Qed.

Lemma overrun_leaves s i :
  packet_queue s = PacketQueue.OVERRUN ->
  Fifo.level (data_buffer s) + 2 <= mem_size s ->
  packet_queue (step s i) = PacketQueue.CLEAR_OVERRUN /\
  packet_transferred (step s i) = packet_transferred s /\
  packet_length (step s i) = packet_length s /\
  data_pushed s = [] /\ packet_popped s = [] /\
  packet_buffer (step s i) = packet_buffer s ++ packet_pushed s i.
Proof.
  intros Hq Hroom. rewrite packet_buffer_step. engine_step Hq.
  apply Z.leb_le in Hroom. rewrite Hroom. auto 12.
Qed.

(** A marker tick of CLEAR_OVERRUN (progress step 0 or 1) with room in the
    output ring buffer. *)
Lemma clear_marker s i :
  packet_queue s = PacketQueue.CLEAR_OVERRUN ->
  packet_transferred s = 0 \/ packet_transferred s = 1 ->
  Fifo.level (data_buffer s) < mem_size s ->
  packet_queue (step s i) = PacketQueue.CLEAR_OVERRUN /\
  packet_transferred (step s i) = packet_transferred s + 1 /\
  packet_length (step s i) = packet_length s /\
  data_pushed s = [255] /\ packet_popped s = [] /\
  packet_buffer (step s i) = packet_buffer s ++ packet_pushed s i.
Proof.
  intros Hq Hpt Hroom. rewrite packet_buffer_step. engine_step Hq.
  unfold Fifo.w_rdy. apply Z.ltb_lt in Hroom. rewrite Hroom.
  destruct Hpt as [-> | ->]; simpl; auto 12.
Qed.

(** The discard loop of CLEAR_OVERRUN: with [payload] at the head of the
    staging buffer and the working length equal to its size, the engine pops
    exactly [payload], writes nothing, and reaches IDLE on the tick after the
    last pop. *)
Lemma clear_discard payload : forall s rest go,
  packet_queue s = PacketQueue.CLEAR_OVERRUN ->
  packet_transferred s = 2 ->
  packet_length s = zlen payload -> zlen payload < 65536 ->
  packet_buffer s = payload ++ rest ->
  length go = S (length payload) ->
  data_log s go = [] /\ popped_log s go = payload /\
  packet_queue (run s go) = PacketQueue.IDLE /\
  packet_length (run s go) = 0 /\
  packet_buffer (run s go) = rest ++ packet_log s go.
Proof.
  induction payload as [|b p IH]; intros s rest go Hq Hpt Hpl Hlt Hbuf Hgo.
  - destruct go as [|i [|? ?]]; try discriminate.
    assert (Hs : packet_queue (step s i) = PacketQueue.IDLE /\
                 packet_length (step s i) = 0 /\
                 data_pushed s = [] /\ packet_popped s = [] /\
                 packet_buffer (step s i) = rest ++ packet_pushed s i).
    { assert (E0 : (packet_transferred s =? 0) = false) by now rewrite Hpt.
      assert (E1 : (packet_transferred s =? 1) = false) by now rewrite Hpt.
      assert (E2 : (packet_length s =? 0) = true) by now rewrite Hpl.
      rewrite packet_buffer_step. engine_step Hq. rewrite E0, E1, E2. simpl.
      rewrite Hbuf. auto 12. }
    destruct Hs as (A & B & C & D & E).
    unfold data_log, popped_log, packet_log. cbn [run log].
    rewrite A, B, C, D, E, !app_nil_r. auto 12.
  - destruct go as [|i go]; try discriminate. injection Hgo as Hgo.
    rewrite zlen_cons in Hpl, Hlt. pose proof (zlen_nonneg p) as Hp.
    assert (Hs : packet_queue (step s i) = PacketQueue.CLEAR_OVERRUN /\
                 packet_transferred (step s i) = 2 /\
                 packet_length (step s i) = zlen p /\
                 data_pushed s = [] /\ packet_popped s = [b] /\
                 packet_buffer (step s i) = p ++ (rest ++ packet_pushed s i)).
    { assert (E0 : (packet_transferred s =? 0) = false) by now rewrite Hpt.
      assert (E1 : (packet_transferred s =? 1) = false) by now rewrite Hpt.
      assert (E2 : (packet_length s =? 0) = false) by (apply Z.eqb_neq; lia).
      assert (E3 : trunc 16 (packet_length s - 1) = zlen p).
      { rewrite trunc_small; change (2 ^ 16) with 65536; lia. }
      rewrite packet_buffer_step, app_assoc. engine_step Hq. rewrite E0, E1, E2. simpl.
      rewrite E3, Hbuf. simpl. auto 12. }
    destruct Hs as (A & B & C & D & E & F).
    destruct (IH (step s i) (rest ++ packet_pushed s i) go A B C ltac:(lia) F Hgo)
      as (A' & B' & C' & D' & E').
    unfold data_log, popped_log, packet_log in *. simpl.
    rewrite A', B', C', D', E', D, E, <- app_assoc. auto 12.
Qed.

(** C2, as the code has it.  A record of length [zlen payload] whose payload
    heads the staging buffer is inspected while
    [output_level + length + 2 > mem_size].  The engine goes to OVERRUN, where
    the first tick sets the overrun flag, and stays there, writing nothing, for
    as long as ([wait]) the output ring buffer has fewer than two free bytes.
    On the first tick with two free bytes ([i1]) it goes to CLEAR_OVERRUN, and
    over the following [length + 3] ticks it writes exactly 0xFF, 0xFF to the
    output ring buffer, pops exactly the record's payload from the staging
    buffer without writing it, and returns to IDLE; the staging buffer then
    starts with what followed the payload. *)
Theorem overrun_substitution s i0 wait i1 go payload rest :
  packet_queue s = PacketQueue.INSPECT_PACKET ->
  packet_buffer s = payload ++ rest ->
  packet_length s = zlen payload -> zlen payload < 65536 ->
  mem_size s < Fifo.level (data_buffer s) + packet_length s + 2 ->
  no_room_during (step s i0) wait = true ->
  Fifo.level (data_buffer (run (step s i0) wait)) + 2 <= mem_size s ->
  length go = (length payload + 3)%nat ->
  let ins := i0 :: wait ++ i1 :: go in
  data_log s ins = [255; 255] /\
  popped_log s ins = payload /\
  data_log s (i0 :: wait) = [] /\
  (forall i, overrun (step (step s i0) i) = true) /\
  overrun (run s ins) = true /\
  packet_queue (run s ins) = PacketQueue.IDLE /\
  packet_buffer (run s ins) = rest ++ packet_log s ins.
Proof.
  intros Hq Hbuf Hpl Hlt Hov Hwait Hroom Hgo ins. subst ins.
  destruct (inspect_overflow s i0 Hq Hov) as (A1 & A2 & A3 & A4 & A5 & A6).
  destruct (overrun_waits wait (step s i0) A1 Hwait) as (B1 & B2 & B3 & B4 & B5 & B6).
  set (s2 := run (step s i0) wait) in *.
  assert (Hm2 : mem_size s2 = mem_size s) by (unfold s2; now rewrite mem_size_run).
  destruct (overrun_leaves s2 i1 B1 ltac:(lia)) as (C1 & C2 & C3 & C4 & C5 & C6).
  pose proof (data_level_step s2 i1) as L3. rewrite C4 in L3.
  change (zlen (@nil Z)) with 0 in L3.
  set (s3 := step s2 i1) in *.
  destruct go as [|a [|b go]]; [simpl in Hgo; lia | simpl in Hgo; lia |].
  assert (Hgo' : length go = S (length payload)) by (simpl in Hgo; lia).
  destruct (clear_marker s3 a C1 ltac:(left; congruence)
              ltac:(change (mem_size s3) with (mem_size s2); lia))
    as (D1 & D2 & D3 & D4 & D5 & D6).
  pose proof (data_level_step s3 a) as L4. rewrite D4 in L4.
  change (zlen [255]) with 1 in L4.
  set (s4 := step s3 a) in *.
  destruct (clear_marker s4 b D1 ltac:(right; lia)
              ltac:(change (mem_size s4) with (mem_size s2); lia))
    as (E1 & E2 & E3 & E4 & E5 & E6).
  set (s5 := step s4 b) in *.
  assert (Hb5 : packet_buffer s5 =
                payload ++ (rest ++ packet_pushed s i0 ++ packet_log (step s i0) wait
                            ++ packet_pushed s2 i1 ++ packet_pushed s3 a
                            ++ packet_pushed s4 b)).
  { rewrite E6, D6, C6, B6, A6, Hbuf. now rewrite <- !app_assoc. }
  destruct (clear_discard payload s5 _ go E1 ltac:(lia) ltac:(congruence) Hlt Hb5 Hgo')
    as (F1 & F2 & F3 & F4 & F5).
  assert (Hrun : run s (i0 :: wait ++ i1 :: a :: b :: go) = run s5 go).
  { rewrite run_cons, run_app. reflexivity. }
  assert (Hov2 : overrun s3 = true).
  { unfold s3. rewrite overrun_step, B1. reflexivity. }
  unfold data_log, popped_log, packet_log in *.
  rewrite Hrun, !log_cons, !log_app, !log_cons. fold s2 s3 s4 s5.
  rewrite A4, A5, B4, B5, C4, C5, D4, D5, E4, E5, F1, F2, F3, F5.
  split; [reflexivity|]. split; [reflexivity|]. split; [reflexivity|].
  split; [|split; [|split]].
  - intros i. rewrite overrun_step, A1. reflexivity.
  - apply overrun_run_mono. unfold s5, s4.
    now apply overrun_step_mono, overrun_step_mono.
  - reflexivity.
  - now rewrite <- !app_assoc.
Qed.

(** With a consumer that never reads, an engine waiting in OVERRUN for room
    never finds it. *)
Lemma stalled_consumer en n : forall s,
  packet_queue s = PacketQueue.OVERRUN ->
  mem_size s < Fifo.level (data_buffer s) + 2 ->
  no_room_during s (repeat (quiet en false) n) = true.
Proof.
  induction n as [|n IH]; intros s Hq Hfull; simpl; auto.
  apply andb_true_intro. split; [now apply Z.ltb_lt|].
  assert (Hle : (Fifo.level (data_buffer s) + 2 <=? mem_size s) = false)
    by now apply Z.leb_gt.
  apply IH.
  - engine_step Hq. now rewrite Hle.
  - rewrite data_buffer_step. simpl stream_ready. cbv iota.
    unfold data_pushed, Fifo.accepts, packet_queue_fsm. rewrite Hq; simpl.
    rewrite app_nil_r. exact Hfull.
Qed.

(** C2 as stated fails when the consumer does not read: the record is
    inspected with [7 + 3 + 2 > 8], and however many ticks follow, no sentinel
    is written, no payload byte is popped and the engine is still in OVERRUN. *)
Lemma sentinel_waits_for_room :
  packet_queue inspecting = PacketQueue.INSPECT_PACKET /\
  packet_length inspecting = 3 /\ packet_buffer inspecting = [1; 2; 3] /\
  mem_size inspecting < Fifo.level (data_buffer inspecting) + packet_length inspecting + 2 /\
  forall n,
    let ins := quiet true false :: repeat (quiet true false) n in
    data_log inspecting ins = [] /\ popped_log inspecting ins = [] /\
    packet_queue (run inspecting ins) = PacketQueue.OVERRUN.
Proof.
  split; [reflexivity|]. split; [reflexivity|]. split; [reflexivity|].
  split; [reflexivity|]. intros n ins. subst ins.
  set (s1 := step inspecting (quiet true false)).
  assert (H1 : packet_queue s1 = PacketQueue.OVERRUN) by reflexivity.
  assert (H2 : mem_size s1 < Fifo.level (data_buffer s1) + 2) by reflexivity.
  destruct (overrun_waits _ s1 H1 (stalled_consumer true n s1 H1 H2))
    as (A & _ & _ & B & C & _).
  unfold data_log, popped_log in *. rewrite run_cons, !log_cons.
  fold s1. rewrite A, B, C. repeat split.
Qed.

Lemma overrun_substitution_witness :
  data_log inspecting
    (quiet true false :: [quiet true false; quiet true true]
     ++ quiet true false :: repeat (quiet true false) 6) = [255; 255].
Proof.
  apply (overrun_substitution inspecting (quiet true false)
           [quiet true false; quiet true true] (quiet true false)
           (repeat (quiet true false) 6) [1; 2; 3] []);
    reflexivity.
Defined.

(** ** A whole record through TRANSFER_PACKET *)

(** The payload loop of TRANSFER_PACKET: with [payload] at the head of the
    staging buffer, the working length equal to its size and room for it in
    the output ring buffer, the engine moves exactly [payload] and reaches
    IDLE on the tick after the last byte. *)
Lemma transfer_payload payload : forall s rest go,
  packet_queue s = PacketQueue.TRANSFER_PACKET ->
  2 <= packet_transferred s -> packet_transferred s + packet_length s <= 65537 ->
  packet_length s = zlen payload ->
  packet_buffer s = payload ++ rest -> Forall is_byte payload ->
  Fifo.level (data_buffer s) + packet_length s <= mem_size s ->
  length go = S (length payload) ->
  data_log s go = payload /\ popped_log s go = payload /\
  packet_queue (run s go) = PacketQueue.IDLE /\
  overrun (run s go) = overrun s /\
  packet_buffer (run s go) = rest ++ packet_log s go.
Proof.
  induction payload as [|b p IH]; intros s rest go Hq Hpt Hsum Hpl Hbuf Hby Hroom Hgo;
    pose proof (overrun_step s) as Hov; rewrite Hq in Hov.
  - destruct go as [|i [|? ?]]; try discriminate.
    assert (Hs : packet_queue (step s i) = PacketQueue.IDLE /\
                 data_pushed s = [] /\ packet_popped s = [] /\
                 packet_buffer (step s i) = rest ++ packet_pushed s i).
    { assert (E0 : (packet_transferred s =? 0) = false) by (apply Z.eqb_neq; lia).
      assert (E1 : (packet_transferred s =? 1) = false) by (apply Z.eqb_neq; lia).
      assert (E2 : (packet_length s =? 0) = true) by now rewrite Hpl.
      rewrite packet_buffer_step. engine_step Hq. rewrite E0, E1, E2. simpl.
      rewrite Hbuf. auto. }
    destruct Hs as (A & B & C & D).
    unfold data_log, popped_log, packet_log. cbn [run log].
    rewrite A, B, C, D, Hov, !app_nil_r. auto.
  - destruct go as [|i go]; try discriminate. injection Hgo as Hgo.
    rewrite zlen_cons in Hpl. pose proof (zlen_nonneg p) as Hp.
    inversion Hby as [|? ? Hb Hby']; subst.
    assert (Hl0 : 0 <= Fifo.level (data_buffer s)) by apply zlen_nonneg.
    assert (Hs : packet_queue (step s i) = PacketQueue.TRANSFER_PACKET /\
                 packet_transferred (step s i) = packet_transferred s + 1 /\
                 packet_length (step s i) = zlen p /\
                 data_pushed s = [b] /\ packet_popped s = [b] /\
                 packet_buffer (step s i) = p ++ (rest ++ packet_pushed s i)).
    { assert (E0 : (packet_transferred s =? 0) = false) by (apply Z.eqb_neq; lia).
      assert (E1 : (packet_transferred s =? 1) = false) by (apply Z.eqb_neq; lia).
      assert (E2 : (packet_length s =? 0) = false) by (apply Z.eqb_neq; lia).
      assert (E3 : trunc 16 (packet_length s - 1) = zlen p).
      { rewrite trunc_small; change (2 ^ 16) with 65536; lia. }
      assert (E4 : trunc 17 (packet_transferred s + 1) = packet_transferred s + 1).
      { rewrite trunc_small; change (2 ^ 17) with 131072; lia. }
      assert (E5 : Fifo.w_rdy (mem_size s) (data_buffer s) = true).
      { unfold Fifo.w_rdy. apply Z.ltb_lt. lia. }
      rewrite packet_buffer_step, app_assoc. engine_step Hq. rewrite E0, E1, E2. simpl.
      rewrite E3, E4, E5, Hbuf. simpl. rewrite trunc8_byte by exact Hb. auto 12. }
    destruct Hs as (A & B & C & D & E & F).
    pose proof (data_level_step s i) as Hl. rewrite D in Hl. change (zlen [b]) with 1 in Hl.
    destruct (IH (step s i) (rest ++ packet_pushed s i) go A ltac:(lia) ltac:(lia) C F Hby'
                ltac:(rewrite mem_size_step; lia) Hgo)
      as (A' & B' & C' & O' & D').
    unfold data_log, popped_log, packet_log in *. cbn [run log].
    rewrite A', B', C', D', O', Hov, D, E, <- app_assoc. auto.
Qed.

Lemma inspect_fits s i :
  packet_queue s = PacketQueue.INSPECT_PACKET ->
  Fifo.level (data_buffer s) + packet_length s + 2 <= mem_size s ->
  packet_queue (step s i) = PacketQueue.TRANSFER_PACKET /\
  packet_transferred (step s i) = 0 /\
  packet_length (step s i) = packet_length s /\
  data_pushed s = [] /\ packet_popped s = [] /\
  packet_buffer (step s i) = packet_buffer s ++ packet_pushed s i.
Proof.
  intros Hq Hfit.
  assert (E : (mem_size s <? Fifo.level (data_buffer s) + packet_length s + 2) = false)
    by (apply Z.ltb_ge; lia).
  rewrite packet_buffer_step. engine_step Hq. rewrite E. auto 12.
Qed.

(** A header tick of TRANSFER_PACKET (progress step 0 or 1) with room in the
    output ring buffer. *)
Lemma transfer_header s i :
  packet_queue s = PacketQueue.TRANSFER_PACKET ->
  packet_transferred s = 0 \/ packet_transferred s = 1 ->
  Fifo.level (data_buffer s) < mem_size s ->
  packet_queue (step s i) = PacketQueue.TRANSFER_PACKET /\
  packet_transferred (step s i) = packet_transferred s + 1 /\
  packet_length (step s i) = packet_length s /\
  data_pushed s = [if packet_transferred s =? 0 then slice (packet_length s) 8 16
                   else slice (packet_length s) 0 8] /\
  packet_popped s = [] /\
  packet_buffer (step s i) = packet_buffer s ++ packet_pushed s i.
Proof.
  intros Hq Hpt Hroom. rewrite packet_buffer_step. engine_step Hq.
  unfold Fifo.w_rdy. apply Z.ltb_lt in Hroom. rewrite Hroom.
  destruct Hpt as [-> | ->]; simpl.
  - rewrite trunc8_byte by (apply (slice_byte _ 8); lia). auto 12.
  - rewrite trunc8_byte by (apply (slice_byte _ 0); lia). auto 12.
Qed.

(** X16: a record that passes the inspection: the engine writes the length, high
    byte first, then the payload, pops exactly the payload, and is back in
    IDLE [length + 4] ticks after the inspection tick began. *)
Lemma transfer_record s go payload rest :
  packet_queue s = PacketQueue.INSPECT_PACKET ->
  packet_buffer s = payload ++ rest -> Forall is_byte payload ->
  packet_length s = zlen payload -> zlen payload < 65536 ->
  Fifo.level (data_buffer s) + packet_length s + 2 <= mem_size s ->
  length go = (length payload + 4)%nat ->
  data_log s go = record_bytes payload /\
  popped_log s go = payload /\
  packet_queue (run s go) = PacketQueue.IDLE /\
  overrun (run s go) = overrun s /\
  packet_buffer (run s go) = rest ++ packet_log s go.
Proof.
  intros Hq Hbuf Hby Hpl Hlt Hfit Hgo.
  destruct go as [|i0 [|a [|b go]]]; try (simpl in Hgo; lia).
  assert (Hgo' : length go = S (length payload)) by (simpl in Hgo; lia).
  pose proof (zlen_nonneg payload) as Hp0.
  assert (Hl0 : 0 <= Fifo.level (data_buffer s)) by apply zlen_nonneg.
  destruct (inspect_fits s i0 Hq Hfit) as (A1 & A2 & A3 & A5 & A6 & A7).
  pose proof (data_level_step s i0) as L1. rewrite A5 in L1. change (zlen (@nil Z)) with 0 in L1.
  pose proof (overrun_step s i0) as O1. rewrite Hq in O1.
  set (s1 := step s i0) in *.
  assert (M1 : mem_size s1 = mem_size s) by reflexivity.
  destruct (transfer_header s1 a A1 ltac:(left; exact A2) ltac:(lia))
    as (B1 & B2 & B3 & B5 & B6 & B7).
  rewrite A2 in B5, B2. change (0 =? 0) with true in B5. cbv iota in B5.
  change (0 + 1) with 1 in B2.
  pose proof (data_level_step s1 a) as L2. rewrite B5 in L2. change (zlen [_]) with 1 in L2.
  pose proof (overrun_step s1 a) as O2. rewrite A1 in O2.
  set (s2 := step s1 a) in *.
  assert (M2 : mem_size s2 = mem_size s) by reflexivity.
  destruct (transfer_header s2 b B1 ltac:(right; exact B2) ltac:(lia))
    as (C1 & C2 & C3 & C5 & C6 & C7).
  rewrite B2 in C5, C2. change (1 =? 0) with false in C5. cbv iota in C5.
  change (1 + 1) with 2 in C2.
  pose proof (data_level_step s2 b) as L3. rewrite C5 in L3. change (zlen [_]) with 1 in L3.
  pose proof (overrun_step s2 b) as O3. rewrite B1 in O3.
  set (s3 := step s2 b) in *.
  assert (M3 : mem_size s3 = mem_size s) by reflexivity.
  assert (Hb3 : packet_buffer s3 =
                payload ++ (rest ++ packet_pushed s i0 ++ packet_pushed s1 a
                            ++ packet_pushed s2 b)).
  { rewrite C7, B7, A7, Hbuf. now rewrite <- !app_assoc. }
  destruct (transfer_payload payload s3 _ go C1 ltac:(lia) ltac:(lia) ltac:(congruence)
              Hb3 Hby ltac:(lia) Hgo')
    as (D1 & D2 & D3 & D4 & D5).
  unfold data_log, popped_log, packet_log, record_bytes in *.
  rewrite !run_cons, !log_cons. fold s1 s2 s3.
  rewrite A5, A6, B5, B6, C5, C6, D1, D2, D3, D4, D5, O3, O2, O1, B3, A3, Hpl.
  repeat split. now rewrite <- !app_assoc.
Qed.

Lemma transfer_record_witness :
  packet_queue admitted = PacketQueue.INSPECT_PACKET /\
  packet_buffer admitted = [1] /\
  data_log admitted (repeat (quiet true false) 5) = record_bytes [1] /\
  packet_queue (run admitted (repeat (quiet true false) 5)) = PacketQueue.IDLE.
Proof.
  assert (Hq : packet_queue admitted = PacketQueue.INSPECT_PACKET) by reflexivity.
  assert (Hb : packet_buffer admitted = [1] ++ []) by reflexivity.
  assert (Hy : Forall is_byte [1]) by (repeat constructor; unfold is_byte; lia).
  assert (Hf : Fifo.level (data_buffer admitted) + packet_length admitted + 2
               <= mem_size admitted) by (vm_compute; discriminate).
  destruct (transfer_record admitted (repeat (quiet true false) 5) [1] []
              Hq Hb Hy eq_refl eq_refl Hf eq_refl) as (A & _ & B & _).
  exact (conj Hq (conj Hb (conj A B))).
Defined.

(** ** Lengths queued against bytes staged (C4) *)

(** What the engine does to its working length in a tick, against what it
    takes from the two queues. *)
Lemma engine_delta s i :
  word16 (packet_length s) -> Forall word16 (length_buffer s) ->
  let q := packet_queue_fsm s in
  word16 (packet_length (step s i)) /\
  packet_length (step s i)
    <= packet_length s + (if q_length_r_en q then hd 0 (length_buffer s) else 0)
       - (if q_packet_r_en q then 1 else 0) /\
  (q_packet_r_en q = true -> 1 <= packet_length s).
Proof.
  intros Hp Hl q. subst q. pose proof (hd_word _ Hl) as Hh.
  unfold word16 in *.
  unfold step, packet_queue_fsm, Fifo.r_data; destruct (packet_queue s); simpl;
    repeat break_if; simpl; bool_to_Z; repeat split; try discriminate; try lia;
    rewrite trunc_small; change (2 ^ 16) with 65536; lia.
Qed.

Lemma in_flight_nonneg s : word16 (captured_packet_length s) -> 0 <= in_flight s.
Proof. unfold in_flight, word16. destruct (capture s); lia. Qed.

(** What the front-end adds to its counter and to the lengths queue in a tick,
    against what it adds to the staging buffer, when the staging buffer takes
    the byte it is offered. *)
Lemma capture_delta s i :
  word16 (captured_packet_length s) ->
  in_flight s <= Fifo.level (packet_buffer s) ->
  negb (c_packet_w_en (capture_drive s i))
    || Fifo.w_rdy MAX_PACKET_SIZE_BYTES (packet_buffer s) = true ->
  word16 (captured_packet_length (step s i)) /\
  Forall word16 (length_pushed s i) /\
  in_flight (step s i) + total (length_pushed s i)
    <= in_flight s + zlen (packet_pushed s i).
Proof.
  intros Hc Hf Hacc. unfold word16 in Hc.
  unfold in_flight, length_pushed, packet_pushed, Fifo.accepts, Fifo.w_rdy, byte_received,
    MAX_PACKET_SIZE_BYTES, Fifo.level in *.
  unfold step, capture_drive, capture_fsm, byte_received in *.
  destruct (capture s); simpl in *;
    destruct (rx_active i), (rx_valid i), (capture_enable i); simpl in *;
    repeat break_if; simpl; bool_to_Z;
    repeat split; auto using trunc16_word; unfold word16, total, zlen in *;
    cbn [length fold_right] in *;
    try discriminate; try lia;
    try (rewrite trunc_small; change (2 ^ 16) with 65536; lia).
Qed.

Lemma counted_reset m : counted (reset m).
Proof. split; unfold word16; simpl; auto; try lia. reflexivity. Qed.

(** A tick on which the staging buffer takes the byte offered keeps the
    lengths covered. *)
Lemma counted_step s i :
  counted s ->
  negb (c_packet_w_en (capture_drive s i))
    || Fifo.w_rdy MAX_PACKET_SIZE_BYTES (packet_buffer s) = true ->
  counted (step s i).
Proof.
  intros [Hp Hc Hl Hle] Hacc.
  pose proof (in_flight_nonneg s Hc) as Hf.
  pose proof (total_nonneg _ Hl) as Hq. fold (queued_bytes s) in Hq.
  destruct (engine_delta s i Hp Hl) as (E1 & E2 & E3).
  assert (Hfl : in_flight s <= Fifo.level (packet_buffer s))
    by (unfold word16 in Hp; lia).
  destruct (capture_delta s i Hc Hfl Hacc) as (C1 & C2 & C3).
  split; auto.
  - rewrite length_buffer_step. apply Forall_app. split; auto.
    destruct (q_length_r_en (packet_queue_fsm s)); auto using Forall_tl.
  - unfold queued_bytes in *. rewrite length_buffer_step, packet_buffer_step.
    unfold Fifo.level in *. rewrite total_app, zlen_app.
    destruct (q_length_r_en (packet_queue_fsm s));
      destruct (q_packet_r_en (packet_queue_fsm s));
      rewrite ?total_tl; try rewrite zlen_tl_pos; specialize (E3 ltac:(auto)) || idtac;
      lia.
Qed.

Lemma counted_run ins : forall s,
  counted s -> no_byte_refused s ins = true -> counted (run s ins).
Proof.
  induction ins as [|i r IH]; intros s Hc Hn; simpl in *; auto.
  apply andb_prop in Hn. destruct Hn as [Hi Hr].
  apply IH; auto using counted_step.
Qed.

(** The staging buffer has a byte whenever the engine pops it. *)
Lemma counted_pop s :
  counted s -> q_packet_r_en (packet_queue_fsm s) = true ->
  Fifo.r_rdy (packet_buffer s) = true /\
  packet_popped s = [Fifo.r_data (packet_buffer s)].
Proof.
  intros [Hp Hc Hl Hle] Hr.
  pose proof (in_flight_nonneg s Hc) as Hf.
  pose proof (total_nonneg _ Hl) as Hq. fold (queued_bytes s) in Hq.
  destruct (engine_delta s (quiet false false) Hp Hl) as (_ & _ & E3).
  specialize (E3 Hr).
  unfold packet_popped, Fifo.r_rdy, Fifo.r_data. rewrite Hr.
  unfold Fifo.level in *.
  destruct (packet_buffer s) as [|b l].
  - change (zlen (@nil Z)) with 0 in Hle. lia.
  - rewrite zlen_cons. split; [apply Z.ltb_lt; pose proof (zlen_nonneg l); lia | reflexivity].
Qed.

(** C4, as the code has it: in every state reached from reset by a run on
    which no byte was offered to a full staging buffer, the lengths waiting in
    the pending-lengths queue, plus the working length of the engine, plus the
    count of the session being received, sum to at most the fill level of the
    staging buffer; whenever the engine pops the staging buffer (in
    TRANSFER_PACKET or CLEAR_OVERRUN) the buffer is not empty; and both queues
    are used in FIFO order: what is popped is a prefix of the staging buffer,
    what is pushed goes to its end, and likewise for the lengths. *)
Theorem staging_covers_lengths mem_depth ins :
  no_byte_refused (reset mem_depth) ins = true ->
  let s := run (reset mem_depth) ins in
  queued_bytes s + packet_length s + in_flight s <= Fifo.level (packet_buffer s) /\
  queued_bytes s <= Fifo.level (packet_buffer s) /\
  (q_packet_r_en (packet_queue_fsm s) = true ->
     (packet_queue s = PacketQueue.TRANSFER_PACKET \/
      packet_queue s = PacketQueue.CLEAR_OVERRUN) /\
     Fifo.r_rdy (packet_buffer s) = true /\
     packet_popped s = [Fifo.r_data (packet_buffer s)]) /\
  (forall i,
     packet_buffer (step s i) =
       skipn (length (packet_popped s)) (packet_buffer s) ++ packet_pushed s i /\
     packet_popped s = firstn (length (packet_popped s)) (packet_buffer s) /\
     length_buffer (step s i) =
       (if q_length_r_en (packet_queue_fsm s)
        then tl (length_buffer s) else length_buffer s) ++ length_pushed s i).
Proof.
  intros Hn s.
  assert (Hc : counted s) by (apply counted_run; auto using counted_reset).
  pose proof (cnt_staged s Hc) as Hle.
  pose proof (in_flight_nonneg s (cnt_captured s Hc)).
  pose proof (cnt_length s Hc) as Hp. unfold word16 in Hp.
  split; [exact Hle|]. split; [lia|]. split.
  - intros Hr. split; [|now apply counted_pop].
    revert Hr. unfold packet_queue_fsm. destruct (packet_queue s); simpl; auto; discriminate.
  - intros i. rewrite packet_buffer_step, length_buffer_step. unfold packet_popped.
    destruct (q_packet_r_en (packet_queue_fsm s)); [|auto].
    destruct (packet_buffer s); auto.
Qed.

(** C4 as stated fails: the engine starts popping the first session's bytes
    four ticks after the second session starts to stage its own, the staging
    buffer (1027 bytes) refuses two bytes of the second session, and two ticks
    after that session ends the queue holds the length 1024 while the staging
    buffer holds 1023 bytes. *)
Lemma queued_length_exceeds_staging :
  let s := run (reset 65536) (back_to_back 2) in
  length_buffer s = [1024] /\ queued_bytes s = 1024 /\
  Fifo.level (packet_buffer s) = 1023.
Proof. vm_compute. repeat split. Qed.

Lemma staging_covers_lengths_witness :
  no_byte_refused (reset 8) overrun_trace = true /\
  queued_bytes inspecting <= Fifo.level (packet_buffer inspecting).
Proof.
  assert (H : no_byte_refused (reset 8) overrun_trace = true) by (vm_compute; reflexivity).
  split; [exact H|].
  exact (proj1 (proj2 (staging_covers_lengths 8 overrun_trace H))).
Defined.

(** ** Order preservation (C1) *)

(** *** Lists of records *)

Lemma stream_cons p ps : stream (p :: ps) = record_bytes p ++ stream ps.
Proof. reflexivity. Qed.

Lemma stream_app a b : stream (a ++ b) = stream a ++ stream b.
Proof. unfold stream. now rewrite map_app, concat_app. Qed.

Lemma zlen_stream ps : zlen (stream ps) = total (map (fun p => zlen p + 2) ps).
Proof.
  induction ps as [|p ps IH]; [reflexivity|].
  rewrite stream_cons, zlen_app. unfold record_bytes. rewrite !zlen_cons, IH.
  cbn [map]. change (total (?x :: ?l)) with (x + total l). lia.
Qed.

Lemma frames_stream queued : forall rest,
  frames (map zlen queued) (concat queued ++ rest) = stream queued.
Proof.
  induction queued as [|p qs IH]; intros rest; [reflexivity|].
  simpl map. simpl concat. rewrite <- app_assoc. simpl frames.
  rewrite to_nat_zlen, firstn_exact, skipn_exact, IH. reflexivity.
Qed.

(** Sessions are determined by the lengths queued and the bytes staged. *)
Lemma sessions_unique (a : list (list Z)) : forall b x y,
  map zlen a = map zlen b -> concat a ++ x = concat b ++ y -> a = b.
Proof.
  induction a as [|p a IH]; intros [|p' b] x y Hl Hc; try discriminate; auto.
  simpl in Hl, Hc. injection Hl as Hp Hl. rewrite <- !app_assoc in Hc.
  assert (Hlen : length p = length p') by (unfold zlen in Hp; lia).
  pose proof (f_equal (firstn (length p)) Hc) as H1.
  pose proof (f_equal (skipn (length p)) Hc) as H2.
  rewrite firstn_exact in H1. rewrite skipn_exact in H2.
  rewrite Hlen, firstn_exact in H1. rewrite Hlen, skipn_exact in H2.
  subst p'. f_equal. eapply IH; eauto.
Qed.

Lemma pending_tracks s out ps cur queued fly :
  tracks s out ps cur queued fly ->
  pending s = header_due s ++ cur ++ stream queued.
Proof.
  intros T. unfold pending.
  rewrite (tr_staging _ _ _ _ _ _ T), (tr_lengths _ _ _ _ _ _ T), (tr_working _ _ _ _ _ _ T).
  now rewrite to_nat_zlen, firstn_exact, skipn_exact, frames_stream.
Qed.

Lemma tracks_reset m : tracks (reset m) [] [] [] [] [].
Proof.
  split; simpl; auto; try reflexivity; try (unfold zlen; simpl; lia).
Qed.

(** *** The engine's part of a tick *)

(** The engine's part of a tick keeps the pipeline view, as long as the
    records of the sessions completed so far fit in the output ring buffer. *)
Lemma engine_phase s i out ps cur queued fly :
  tracks s out ps cur queued fly ->
  zlen (stream ps) <= mem_size s ->
  exists cur' queued',
    tracks (engine_tick s i) (out ++ data_pushed s) ps cur' queued' fly.
Proof.
  intros [Hst Hln Hw Hfl Hstr Hsz Hcs Hfs Hby Hph Hla Hlv] Hbound.
  assert (Hlv' : Fifo.level (data_buffer (engine_tick s i)) <= zlen (out ++ data_pushed s)).
  { change (data_buffer (engine_tick s i)) with (data_buffer (step s i)).
    pose proof (data_level_step s i). rewrite zlen_app. lia. }
  assert (Hdl : Fifo.level (data_buffer (engine_tick s i))
                <= Fifo.level (data_buffer s) + zlen (data_pushed s)).
  { change (data_buffer (engine_tick s i)) with (data_buffer (step s i)).
    apply data_level_step. }
  pose proof (zlen_nonneg cur) as Hc0.
  assert (Ems : mem_size (engine_tick s i) = mem_size s) by reflexivity.
  destruct (packet_queue s) eqn:Hq; try contradiction.
  - (* IDLE *)
    subst cur. exists [], queued.
    assert (E : (packet_queue (engine_tick s i) = PacketQueue.IDLE \/
                 packet_queue (engine_tick s i) = PacketQueue.POP_LENGTH /\ queued <> []) /\
                packet_length (engine_tick s i) = packet_length s /\
                packet_buffer (engine_tick s i) = packet_buffer s /\
                length_buffer (engine_tick s i) = length_buffer s /\
                data_pushed s = [] /\ overrun (engine_tick s i) = overrun s).
    { engine_eval Hq. repeat split; auto.
      destruct (Fifo.r_rdy (length_buffer s)) eqn:E; auto. right. split; auto.
      intros ->. rewrite Hln in E. discriminate. }
    destruct E as (Epq & Epl & Epb & Elb & Edp & Eov).
    rewrite Edp, app_nil_r in *.
    assert (Hh : header_due (engine_tick s i) = []).
    { unfold header_due. destruct Epq as [-> | [-> _]]; reflexivity. }
    split; try exact Hlv'; try assumption; rewrite ?Ems, ?Epb, ?Elb, ?Epl, ?Eov, ?Hh; auto.
    + unfold header_due in Hstr. rewrite Hq in Hstr. exact Hstr.
    + destruct Epq as [-> | [-> ?]]; auto.
  - (* POP_LENGTH *)
    destruct Hph as [-> Hne]. destruct queued as [|p qs]; [congruence|].
    exists p, qs. inversion Hsz as [|? ? Hp1 Hp2]; subst.
    assert (E : packet_queue (engine_tick s i) = PacketQueue.INSPECT_PACKET /\
                packet_length (engine_tick s i) = zlen p /\
                packet_buffer (engine_tick s i) = packet_buffer s /\
                length_buffer (engine_tick s i) = map zlen qs /\
                data_pushed s = [] /\ overrun (engine_tick s i) = overrun s).
    { engine_eval Hq. rewrite Hln. repeat split; auto. }
    destruct E as (Epq & Epl & Epb & Elb & Edp & Eov).
    rewrite Edp, app_nil_r in *.
    assert (Hh : header_due (engine_tick s i) = [slice (zlen p) 8 16; slice (zlen p) 0 8]).
    { unfold header_due. rewrite Epq, Epl. reflexivity. }
    split; try exact Hlv'; try assumption; rewrite ?Ems, ?Epb, ?Elb, ?Epl, ?Eov, ?Hh, ?Epq; auto.
    + rewrite Hst. simpl. now rewrite <- app_assoc.
    + unfold header_due in Hstr. rewrite Hq in Hstr. exact Hstr.
  - (* INSPECT *)
    exists cur, queued.
    assert (Hfit : (mem_size s <? Fifo.level (data_buffer s) + packet_length s + 2) = false).
    { apply Z.ltb_ge. apply (f_equal (@zlen Z)) in Hstr.
      unfold header_due in Hstr. rewrite Hq in Hstr.
      rewrite !zlen_app, !zlen_cons in Hstr.
      pose proof (zlen_nonneg (stream queued)). change (zlen (@nil Z)) with 0 in Hstr. lia. }
    assert (E : packet_queue (engine_tick s i) = PacketQueue.TRANSFER_PACKET /\
                packet_length (engine_tick s i) = packet_length s /\
                packet_transferred (engine_tick s i) = 0 /\
                packet_buffer (engine_tick s i) = packet_buffer s /\
                length_buffer (engine_tick s i) = length_buffer s /\
                data_pushed s = [] /\ overrun (engine_tick s i) = overrun s).
    { engine_eval Hq. rewrite Hfit. repeat split; auto. }
    destruct E as (Epq & Epl & Ept & Epb & Elb & Edp & Eov).
    rewrite Edp, app_nil_r in *. change (zlen (@nil Z)) with 0 in Hdl.
    assert (Hh : header_due (engine_tick s i) = header_due s).
    { unfold header_due. rewrite Epq, Epl, Ept, Hq. reflexivity. }
    split; try exact Hlv'; try assumption; rewrite ?Ems, ?Epb, ?Elb, ?Epl, ?Eov, ?Hh, ?Epq, ?Ept; auto.
    unfold header_due. rewrite Hq. rewrite !zlen_cons. change (zlen (@nil Z)) with 0.
    bool_to_Z. lia.
  - (* TRANSFER *)
    destruct Hph as (Hpt0 & Hptl & Hroom).
    assert (Hl0 : 0 <= Fifo.level (data_buffer s)) by apply zlen_nonneg.
    destruct (packet_transferred s =? 0) eqn:E0; [|destruct (packet_transferred s =? 1) eqn:E1;
      [|destruct (packet_length s =? 0) eqn:E2]]; bool_to_Z.
    + (* header, high byte *)
      exists cur, queued.
      assert (Hh0 : header_due s = [slice (packet_length s) 8 16; slice (packet_length s) 0 8]).
      { unfold header_due. rewrite Hq, E0. reflexivity. }
      rewrite Hh0 in *. rewrite !zlen_cons in Hroom. change (zlen (@nil Z)) with 0 in Hroom.
      assert (Hrdy : (Fifo.level (data_buffer s) <? mem_size s) = true) by (apply Z.ltb_lt; lia).
      assert (E : packet_queue (engine_tick s i) = PacketQueue.TRANSFER_PACKET /\
                  packet_length (engine_tick s i) = packet_length s /\
                  packet_transferred (engine_tick s i) = 1 /\
                  packet_buffer (engine_tick s i) = packet_buffer s /\
                  length_buffer (engine_tick s i) = length_buffer s /\
                  data_pushed s = [slice (packet_length s) 8 16] /\
                  overrun (engine_tick s i) = overrun s).
      { engine_eval Hq. rewrite E0. simpl. rewrite Hrdy.
        rewrite trunc8_byte by (apply (slice_byte _ 8); lia). repeat split; auto. }
      destruct E as (Epq & Epl & Ept & Epb & Elb & Edp & Eov).
      rewrite Edp in *. change (zlen [_]) with 1 in Hdl.
      assert (Hh : header_due (engine_tick s i) = [slice (packet_length s) 0 8]).
      { unfold header_due. rewrite Epq, Epl, Ept. reflexivity. }
      split; try exact Hlv'; try assumption; rewrite ?Ems, ?Epb, ?Elb, ?Epl, ?Eov, ?Hh, ?Epq, ?Ept; auto.
      * rewrite <- Hstr. now rewrite <- !app_assoc.
      * change (zlen [_]) with 1. lia.
    + (* header, low byte *)
      exists cur, queued.
      assert (Hh0 : header_due s = [slice (packet_length s) 0 8]).
      { unfold header_due. rewrite Hq, E1.
        destruct (packet_transferred s =? 0) eqn:E0'; bool_to_Z; [lia | reflexivity]. }
      rewrite Hh0 in *. change (zlen [_]) with 1 in Hroom.
      assert (Hrdy : (Fifo.level (data_buffer s) <? mem_size s) = true) by (apply Z.ltb_lt; lia).
      assert (E : packet_queue (engine_tick s i) = PacketQueue.TRANSFER_PACKET /\
                  packet_length (engine_tick s i) = packet_length s /\
                  packet_transferred (engine_tick s i) = 2 /\
                  packet_buffer (engine_tick s i) = packet_buffer s /\
                  length_buffer (engine_tick s i) = length_buffer s /\
                  data_pushed s = [slice (packet_length s) 0 8] /\
                  overrun (engine_tick s i) = overrun s).
      { engine_eval Hq. rewrite E1. simpl. rewrite Hrdy.
        rewrite trunc8_byte by (apply (slice_byte _ 0); lia). repeat split; auto. }
      destruct E as (Epq & Epl & Ept & Epb & Elb & Edp & Eov).
      rewrite Edp in *. change (zlen [_]) with 1 in Hdl.
      assert (Hh : header_due (engine_tick s i) = []).
      { unfold header_due. rewrite Epq, Ept. reflexivity. }
      split; try exact Hlv'; try assumption; rewrite ?Ems, ?Epb, ?Elb, ?Epl, ?Eov, ?Hh, ?Epq, ?Ept; auto.
      * rewrite <- Hstr. now rewrite <- !app_assoc.
      * change (zlen (@nil Z)) with 0. lia.
    + (* done *)
      assert (cur = []) as -> by (destruct cur; [reflexivity | rewrite zlen_cons in Hw; pose proof (zlen_nonneg cur); lia]).
      exists [], queued.
      assert (Hh0 : header_due s = []).
      { unfold header_due. rewrite Hq.
        destruct (packet_transferred s =? 0) eqn:E0'; bool_to_Z; [lia|].
        destruct (packet_transferred s =? 1) eqn:E1'; bool_to_Z; [lia | reflexivity]. }
      rewrite Hh0 in *.
      assert (E : packet_queue (engine_tick s i) = PacketQueue.IDLE /\
                  packet_length (engine_tick s i) = packet_length s /\
                  packet_buffer (engine_tick s i) = packet_buffer s /\
                  length_buffer (engine_tick s i) = length_buffer s /\
                  data_pushed s = [] /\
                  overrun (engine_tick s i) = overrun s).
      { engine_eval Hq.
        apply Z.eqb_neq in E0, E1. apply Z.eqb_eq in E2. rewrite E0, E1, E2. simpl.
        repeat split; auto. }
      destruct E as (Epq & Epl & Epb & Elb & Edp & Eov).
      rewrite Edp, app_nil_r in *.
      assert (Hh : header_due (engine_tick s i) = []).
      { unfold header_due. rewrite Epq. reflexivity. }
      split; try exact Hlv'; try assumption; rewrite ?Ems, ?Epb, ?Elb, ?Epl, ?Eov, ?Hh, ?Epq; auto.
    + (* payload byte *)
      destruct cur as [|b cur']; [change (zlen (@nil Z)) with 0 in Hw; lia|].
      rewrite zlen_cons in Hw, Hcs. pose proof (zlen_nonneg cur') as Hc1.
      exists cur', queued.
      assert (Hh0 : header_due s = []).
      { unfold header_due. rewrite Hq.
        destruct (packet_transferred s =? 0) eqn:E0'; bool_to_Z; [lia|].
        destruct (packet_transferred s =? 1) eqn:E1'; bool_to_Z; [lia | reflexivity]. }
      rewrite Hh0 in *. change (zlen (@nil Z)) with 0 in Hroom.
      assert (Hrdy : (Fifo.level (data_buffer s) <? mem_size s) = true) by (apply Z.ltb_lt; lia).
      assert (Hb : is_byte b) by (rewrite Hst in Hby; eapply head_byte; eauto).
      assert (E : packet_queue (engine_tick s i) = PacketQueue.TRANSFER_PACKET /\
                  packet_length (engine_tick s i) = zlen cur' /\
                  packet_transferred (engine_tick s i) = packet_transferred s + 1 /\
                  packet_buffer (engine_tick s i) = cur' ++ concat queued ++ fly /\
                  length_buffer (engine_tick s i) = length_buffer s /\
                  data_pushed s = [b] /\
                  overrun (engine_tick s i) = overrun s).
      { engine_eval Hq.
        apply Z.eqb_neq in E0, E1, E2. rewrite E0, E1, E2. simpl. rewrite Hrdy, Hst. simpl.
        rewrite trunc8_byte by exact Hb.
        rewrite !trunc_small; [repeat split; auto; lia | change (2 ^ 17) with 131072; lia
                               | change (2 ^ 16) with 65536; lia]. }
      destruct E as (Epq & Epl & Ept & Epb & Elb & Edp & Eov).
      rewrite Edp in *. change (zlen [_]) with 1 in Hdl.
      assert (Hh : header_due (engine_tick s i) = []).
      { unfold header_due. rewrite Epq, Ept.
        destruct (packet_transferred s + 1 =? 0) eqn:E0'; bool_to_Z; [lia|].
        destruct (packet_transferred s + 1 =? 1) eqn:E1'; bool_to_Z; [lia | reflexivity]. }
      split; try exact Hlv'; try assumption; rewrite ?Ems, ?Epb, ?Elb, ?Epl, ?Eov, ?Hh, ?Epq, ?Ept; auto.
      * rewrite <- Hstr. simpl. now rewrite <- !app_assoc.
      * lia.
      * rewrite Hst in Hby. now inversion Hby.
      * change (zlen (@nil Z)) with 0. lia.
Qed.

(** *** The front-end's part of a tick *)

(** What the front-end does in a tick in which its pushes are taken: nothing
    reaches the queues, or one byte reaches the staging buffer, or the length
    of the session reaches the lengths queue. *)
Lemma capture_event s0 i (fly : list Z) :
  pushes_taken s0 i = true ->
  match capture s0 with
  | Capture.CAPTURE => captured_packet_length s0 = zlen fly
  | _ => fly = []
  end ->
  zlen fly < 65536 ->
  zlen fly <= Fifo.level (packet_buffer s0) ->
  let c := capture_drive s0 i in
  (packet_pushed s0 i = [] /\ length_pushed s0 i = [] /\
   match c_next c with
   | Capture.CAPTURE => c_captured_packet_length c = zlen fly
   | _ => fly = []
   end) \/
  (exists b, is_byte b /\ packet_pushed s0 i = [b] /\ length_pushed s0 i = [] /\
             c_next c = Capture.CAPTURE /\
             c_captured_packet_length c = zlen fly + 1 /\ zlen fly + 1 < 65536) \/
  (packet_pushed s0 i = [] /\ length_pushed s0 i = [zlen fly] /\
   c_next c = Capture.IDLE).
Proof.
  intros Hacc Hfl Hsz Hlv c. subst c. pose proof (zlen_nonneg fly) as H0.
  unfold pushes_taken, packet_pushed, length_pushed, Fifo.accepts, Fifo.w_rdy,
    MAX_PACKET_SIZE_BYTES, LENGTH_BUFFER_DEPTH in *.
  unfold capture_drive, capture_fsm, byte_received in *.
  destruct (capture s0); simpl in *.
  - left. subst fly. destruct (rx_active i), (capture_enable i); simpl; auto.
  - left. subst fly. destruct (rx_active i), (capture_enable i); simpl; auto.
  - destruct (rx_active i), (rx_valid i); simpl in *.
    + right; left. exists (trunc 8 (rx_data i)).
      rewrite andb_true_r in Hacc. rewrite Hacc. bool_to_Z.
      rewrite Hfl, (trunc_small 16) by (change (2 ^ 16) with 65536; lia).
      split; [apply trunc8_is_byte|]. repeat split; auto; lia.
    + left. auto.
    + right; right. rewrite Hacc, Hfl.
      rewrite trunc_small by (change (2 ^ 16) with 65536; lia). auto.
    + right; right. rewrite Hacc, Hfl.
      rewrite trunc_small by (change (2 ^ 16) with 65536; lia). auto.
Qed.

(** The front-end's part of a tick keeps the pipeline view. *)
Lemma capture_phase s0 s i out ps cur queued fly :
  capture s = capture s0 ->
  captured_packet_length s = captured_packet_length s0 ->
  Fifo.level (packet_buffer s) <= Fifo.level (packet_buffer s0) ->
  tracks s out ps cur queued fly ->
  pushes_taken s0 i = true ->
  exists ps1 fly',
    tracks (capture_tick s0 s i) out (ps ++ ps1) cur (queued ++ ps1) fly' /\
    length_pushed s0 i = map zlen ps1 /\
    fly ++ packet_pushed s0 i = concat ps1 ++ fly'.
Proof.
  intros Hc Hcl Hlvl [Hst Hln Hw Hfl Hstr Hsz Hcs Hfs Hby Hph Hla Hlv] Hacc.
  assert (Hfl0 : match capture s0 with
                 | Capture.CAPTURE => captured_packet_length s0 = zlen fly
                 | _ => fly = []
                 end) by (rewrite <- Hc, <- Hcl; exact Hfl).
  assert (Hfit : zlen fly <= Fifo.level (packet_buffer s0)).
  { unfold Fifo.level in *. rewrite Hst, !zlen_app in Hlvl.
    pose proof (zlen_nonneg cur). pose proof (zlen_nonneg (concat queued)). lia. }
  assert (Hh : header_due (capture_tick s0 s i) = header_due s) by reflexivity.
  destruct (capture_event s0 i fly Hacc Hfl0 Hfs Hfit)
    as [(Ep & El & Ef) | [(b & Hb & Ep & El & En & Ec & Hs) | (Ep & El & En)]].
  - exists [], fly. rewrite !app_nil_r. split; [|split]; auto; [|now rewrite Ep, app_nil_r].
    split; auto; unfold capture_tick; simpl; rewrite ?Ep, ?El, ?app_nil_r; auto.
  - exists [], (fly ++ [b]). rewrite !app_nil_r. split; [|split]; auto; [|now rewrite Ep].
    split; auto; unfold capture_tick; simpl; rewrite ?Ep, ?El, ?En, ?Ec, ?app_nil_r; auto.
    + rewrite Hst. now rewrite <- !app_assoc.
    + rewrite zlen_app. reflexivity.
    + rewrite zlen_app. change (zlen [b]) with 1. lia.
    + apply Forall_app. split; auto.
  - exists [fly], []. split; [|split]; auto; [|now rewrite Ep; simpl; rewrite !app_nil_r].
    split; auto; unfold capture_tick; simpl; rewrite ?Ep, ?El, ?En, ?app_nil_r; auto.
    + rewrite Hst, concat_app. simpl. now rewrite !app_nil_r.
    + rewrite Hln, map_app. reflexivity.
    + change (header_due _) with (header_due s).
      rewrite !stream_app, <- Hstr. now rewrite <- !app_assoc.
    + apply Forall_app. split; auto.
    + unfold zlen; simpl; lia.
    + destruct (packet_queue s) eqn:Hq; auto.
      * destruct Hph as [? ?]. split; auto. destruct queued; discriminate.
      * unfold header_due in *. simpl. rewrite Hq in Hph. exact Hph.
Qed.

(** *** Whole ticks and runs *)

(** A tick on which the front-end's pushes are taken keeps the pipeline view;
    a length taken on it completes the session in flight. *)
Lemma tracks_step s i out ps cur queued fly :
  tracks s out ps cur queued fly ->
  pushes_taken s i = true ->
  zlen (stream ps) <= mem_size s ->
  exists ps1 cur' queued' fly',
    tracks (step s i) (out ++ data_pushed s) (ps ++ ps1) cur' queued' fly' /\
    length_pushed s i = map zlen ps1 /\
    fly ++ packet_pushed s i = concat ps1 ++ fly'.
Proof.
  intros T Hacc Hb.
  destruct (engine_phase s i out ps cur queued fly T Hb) as (cur' & queued' & T').
  assert (Hl : Fifo.level (packet_buffer (engine_tick s i)) <= Fifo.level (packet_buffer s)).
  { unfold engine_tick, Fifo.level; simpl.
    destruct (q_packet_r_en (packet_queue_fsm s)); [apply zlen_tl | lia]. }
  destruct (capture_phase s (engine_tick s i) i _ _ _ _ _ eq_refl eq_refl Hl T' Hacc)
    as (ps1 & fly' & T'' & E1 & E2).
  exists ps1, cur', (queued' ++ ps1), fly'. rewrite step_split. auto.
Qed.

Lemma length_pushed_word s i : Forall word16 (length_pushed s i).
Proof.
  unfold length_pushed. destruct (Fifo.accepts _ _ _); constructor;
    [apply trunc16_word | constructor].
Qed.

Lemma length_log_word ins : forall s, Forall word16 (length_log s ins).
Proof.
  induction ins as [|i r IH]; intros s; [constructor|].
  unfold length_log in *. simpl. apply Forall_app. split; [|apply IH].
  apply length_pushed_word.
Qed.

Lemma stream_size_app a b : stream_size (a ++ b) = stream_size a + stream_size b.
Proof. unfold stream_size. now rewrite map_app, total_app. Qed.

Lemma stream_size_nonneg l : Forall word16 l -> 0 <= stream_size l.
Proof. unfold stream_size, word16. induction 1; simpl; lia. Qed.

Lemma stream_size_zlen ps : stream_size (map zlen ps) = zlen (stream ps).
Proof. unfold stream_size. now rewrite zlen_stream, map_map. Qed.

Lemma tracks_run ins : forall s out ps cur queued fly,
  tracks s out ps cur queued fly ->
  no_push_refused s ins = true ->
  stream_size (map zlen ps ++ length_log s ins) <= mem_size s ->
  exists ps' cur' queued' fly',
    tracks (run s ins) (out ++ data_log s ins) (ps ++ ps') cur' queued' fly' /\
    length_log s ins = map zlen ps' /\
    fly ++ packet_log s ins = concat ps' ++ fly'.
Proof.
  induction ins as [|i r IH]; intros s out ps cur queued fly T Hn Hb.
  - exists [], cur, queued, fly. simpl. rewrite !app_nil_r. auto.
  - simpl in Hn. apply andb_prop in Hn. destruct Hn as [Hacc Hn].
    unfold length_log, data_log, packet_log in *. rewrite !log_cons in *.
    pose proof (length_log_word r (step s i)) as Hw. unfold length_log in Hw.
    assert (Hb0 : zlen (stream ps) <= mem_size s).
    { rewrite !stream_size_app, stream_size_zlen in Hb.
      pose proof (stream_size_nonneg _ Hw).
      assert (0 <= stream_size (length_pushed s i)).
      { apply stream_size_nonneg, length_pushed_word. }
      lia. }
    destruct (tracks_step s i out ps cur queued fly T Hacc Hb0)
      as (ps1 & cur1 & queued1 & fly1 & T1 & E1 & E2).
    assert (Hb1 : stream_size (map zlen (ps ++ ps1) ++ log length_pushed (step s i) r)
                  <= mem_size (step s i)).
    { rewrite map_app, <- E1, <- app_assoc. exact Hb. }
    destruct (IH (step s i) _ _ _ _ _ T1 Hn Hb1)
      as (ps2 & cur2 & queued2 & fly2 & T2 & E3 & E4).
    exists (ps1 ++ ps2), cur2, queued2, fly2. rewrite run_cons.
    rewrite !app_assoc. split; [exact T2|]. split.
    + now rewrite map_app, E1, E3.
    + rewrite E2, concat_app, <- !app_assoc. f_equal. exact E4.
Qed.

(** With the channel quiet and no session in flight the front-end offers
    nothing and stays out of CAPTURE. *)
Lemma quiet_capture s i :
  capture s <> Capture.CAPTURE -> rx_is_quiet i ->
  pushes_taken s i = true /\ length_pushed s i = [] /\ packet_pushed s i = [] /\
  capture (step s i) <> Capture.CAPTURE.
Proof.
  unfold rx_is_quiet. intros Hc Hq.
  unfold pushes_taken, length_pushed, packet_pushed, Fifo.accepts, step, capture_drive,
    capture_fsm, byte_received.
  destruct (capture s); try congruence; simpl; rewrite Hq; simpl;
    destruct (capture_enable i); simpl; repeat split; congruence.
Qed.

Lemma total6_nonneg (queued : list (list Z)) :
  0 <= total (map (fun len => len + 6) (map zlen queued)).
Proof.
  induction queued as [|p q IH]; [simpl; lia|].
  cbn [map]. change (total (?x :: ?l)) with (x + total l).
  pose proof (zlen_nonneg p). lia.
Qed.

Lemma not_rdy_empty (q : Fifo.t) : Fifo.r_rdy q = false -> q = [].
Proof.
  unfold Fifo.r_rdy, Fifo.level. destruct q as [|x q]; auto. rewrite zlen_cons.
  pose proof (zlen_nonneg q) as Hn. intros Hr. bool_to_Z. lia.
Qed.

Lemma rdy_total6 (queued : list (list Z)) :
  Fifo.r_rdy (map zlen queued) = true ->
  1 <= total (map (fun len => len + 6) (map zlen queued)).
Proof.
  destruct queued as [|p q]; [discriminate|]. intros _.
  cbn [map]. change (total (?x :: ?l)) with (x + total l).
  pose proof (zlen_nonneg p). pose proof (total6_nonneg q). lia.
Qed.

(** When no length arrives, a tick brings the engine one tick closer to idle
    with an empty queue, where [ticks_left] is zero. *)
Lemma ticks_left_step s i out ps cur queued fly :
  tracks s out ps cur queued fly ->
  zlen (stream ps) <= mem_size s ->
  length_pushed s i = [] ->
  0 <= ticks_left s /\
  ticks_left (step s i) = Z.max 0 (ticks_left s - 1) /\
  (ticks_left s = 0 -> packet_queue s = PacketQueue.IDLE /\ length_buffer s = []).
Proof.
  intros T Hbound Hnp.
  destruct (engine_phase s i out ps cur queued fly T Hbound) as (cur' & queued' & T').
  destruct T as [Hst Hln Hw Hfl Hstr Hsz Hcs Hfs Hby Hph Hla Hlv].
  pose proof (zlen_nonneg cur) as Hc0.
  pose proof (total6_nonneg queued) as Hq6. rewrite <- Hln in Hq6.
  unfold ticks_left. rewrite length_buffer_step, Hnp, app_nil_r.
  destruct (packet_queue s) eqn:Hq; try contradiction.
  - (* IDLE *)
    unfold step, packet_queue_fsm; rewrite Hq; simpl.
    destruct (Fifo.r_rdy (length_buffer s)) eqn:Er; simpl.
    + rewrite Hln in Er. pose proof (rdy_total6 _ Er) as H6. rewrite <- Hln in H6.
      repeat split; try lia.
    + apply not_rdy_empty in Er. rewrite Er. simpl. repeat split; auto; lia.
  - (* POP *)
    destruct Hph as [-> Hne]. destruct queued as [|p q]; [congruence|].
    unfold step, packet_queue_fsm; rewrite Hq; simpl. rewrite Hln.
    cbn [map tl Fifo.r_data hd]. change (total (?x :: ?l)) with (x + total l).
    pose proof (zlen_nonneg p). pose proof (total6_nonneg q).
    repeat split; try lia.
  - (* INSPECT *)
    assert (Hfit : (mem_size s <? Fifo.level (data_buffer s) + packet_length s + 2) = false).
    { apply Z.ltb_ge. apply (f_equal (@zlen Z)) in Hstr.
      unfold header_due in Hstr. rewrite Hq in Hstr.
      rewrite !zlen_app, !zlen_cons in Hstr.
      pose proof (zlen_nonneg (stream queued)). change (zlen (@nil Z)) with 0 in Hstr. lia. }
    unfold step, packet_queue_fsm; rewrite Hq; simpl. rewrite Hfit. simpl.
    repeat split; try lia.
  - (* TRANSFER *)
    destruct Hph as (Hpt0 & Hptl & Hroom).
    unfold step, packet_queue_fsm; rewrite Hq; simpl.
    destruct (packet_transferred s =? 0) eqn:E0; simpl;
      [|destruct (packet_transferred s =? 1) eqn:E1; simpl;
        [|destruct (packet_length s =? 0) eqn:E2; simpl]]; bool_to_Z.
    + rewrite E0. simpl. repeat split; try lia.
    + rewrite E1. simpl. repeat split; try lia.
    + repeat split; try lia.
    + rewrite !trunc_small by (try change (2 ^ 17) with 131072; try change (2 ^ 16) with 65536; lia).
      destruct (packet_transferred s + 1 =? 0) eqn:E0'; bool_to_Z; [lia|].
      destruct (packet_transferred s + 1 =? 1) eqn:E1'; bool_to_Z; [lia|].
      repeat split; try lia.
Qed.

(** With the channel quiet and no session in flight, the engine works through
    the records queued, one tick at a time. *)
Lemma drains tail : forall s out ps cur queued fly,
  tracks s out ps cur queued fly ->
  capture s <> Capture.CAPTURE ->
  zlen (stream ps) <= mem_size s ->
  Forall rx_is_quiet tail ->
  exists cur' queued' fly',
    tracks (run s tail) (out ++ data_log s tail) ps cur' queued' fly' /\
    ticks_left (run s tail) = Z.max 0 (ticks_left s - zlen tail) /\
    capture (run s tail) <> Capture.CAPTURE.
Proof.
  induction tail as [|i r IH]; intros s out ps cur queued fly T Hc Hb Hq.
  - exists cur, queued, fly. unfold data_log. cbn [run log]. rewrite app_nil_r.
    destruct (ticks_left_step s (quiet false false) _ _ _ _ _ T Hb) as (H0 & _).
    { apply quiet_capture; [exact Hc | reflexivity]. }
    change (zlen (@nil Inputs)) with 0. split; [exact T|]. split; [lia | exact Hc].
  - inversion Hq as [|? ? Hi Hr]; subst.
    destruct (quiet_capture s i Hc Hi) as (Hacc & Hlp & Hpp & Hc').
    destruct (ticks_left_step s i _ _ _ _ _ T Hb Hlp) as (H0 & H1 & _).
    destruct (tracks_step s i _ _ _ _ _ T Hacc Hb)
      as (ps1 & cur1 & queued1 & fly1 & T1 & E1 & _).
    rewrite Hlp in E1. symmetry in E1. apply map_eq_nil in E1. subst ps1.
    rewrite app_nil_r in T1.
    destruct (IH (step s i) _ _ _ _ _ T1 Hc' Hb Hr) as (cur2 & queued2 & fly2 & T2 & E2 & Hc2).
    exists cur2, queued2, fly2. rewrite run_cons. unfold data_log in *. rewrite log_cons.
    rewrite app_assoc. split; [exact T2|]. split; [|exact Hc2].
    rewrite E2, H1, zlen_cons. pose proof (zlen_nonneg r). lia.
Qed.

(** C1, as the code has it.  Take a run from reset on which every byte and
    every length the front-end offers is taken by its queue, and let [ps] be
    the sessions completed on it: their lengths are what reached the
    pending-lengths queue, in order, and their payloads, in order, are what
    reached the staging buffer (followed by the bytes [fly] of a session still
    being received).  If every session has at most 1024 bytes and all the
    records together fit in the output ring buffer, then the bytes written to
    the output ring buffer so far, followed by the bytes still pending for the
    record being transferred and the records queued, are exactly the records
    [(length high, length low, payload)] of [ps] in order; no overrun is
    flagged; once the engine is idle with an empty pending-lengths queue the
    bytes written are exactly those records; and when no session is in flight,
    [ticks_left] further ticks with the channel quiet bring the engine there:
    idle, both queues empty, everything written. *)
Theorem order_preserved mem_depth ins ps fly :
  no_push_refused (reset mem_depth) ins = true ->
  length_log (reset mem_depth) ins = map zlen ps ->
  packet_log (reset mem_depth) ins = concat ps ++ fly ->
  Forall (fun p => zlen p <= 1024) ps ->
  zlen (stream ps) <= mem_depth ->
  let s := run (reset mem_depth) ins in
  data_log (reset mem_depth) ins ++ pending s = stream ps /\
  overrun s = false /\
  (packet_queue s = PacketQueue.IDLE -> length_buffer s = [] ->
     data_log (reset mem_depth) ins = stream ps) /\
  (capture s <> Capture.CAPTURE ->
   forall tail, Forall rx_is_quiet tail -> ticks_left s <= zlen tail ->
     packet_queue (run s tail) = PacketQueue.IDLE /\
     length_buffer (run s tail) = [] /\
     packet_buffer (run s tail) = [] /\
     overrun (run s tail) = false /\
     data_log (reset mem_depth) (ins ++ tail) = stream ps).
Proof.
  intros Hn Hl Hp _ Hfit s.
  assert (Hb : stream_size (map zlen (@nil (list Z)) ++ length_log (reset mem_depth) ins)
               <= mem_size (reset mem_depth)).
  { simpl app. rewrite Hl, stream_size_zlen. exact Hfit. }
  destruct (tracks_run ins _ _ _ _ _ _ (tracks_reset mem_depth) Hn Hb)
    as (ps' & cur & queued & fly' & T & E1 & E2).
  simpl in T, E2. fold s in T.
  assert (ps' = ps) as ->.
  { eapply sessions_unique; [rewrite <- E1; exact Hl | rewrite <- E2; exact Hp]. }
  assert (Hidle : forall s' out cur' queued' fly'',
            tracks s' out ps cur' queued' fly'' ->
            packet_queue s' = PacketQueue.IDLE -> length_buffer s' = [] ->
            out = stream ps /\ cur' = [] /\ queued' = []).
  { intros s' out cur' queued' fly'' T' Hq He.
    pose proof (tr_stream _ _ _ _ _ _ T') as Hs.
    pose proof (tr_phase _ _ _ _ _ _ T') as Hph. rewrite Hq in Hph. subst cur'.
    pose proof (tr_lengths _ _ _ _ _ _ T') as Hlen. rewrite He in Hlen.
    destruct queued'; [|discriminate].
    unfold header_due in Hs. rewrite Hq in Hs. simpl in Hs.
    rewrite app_nil_r in Hs. auto. }
  pose proof (pending_tracks _ _ _ _ _ _ T) as Hpend.
  pose proof (tr_stream _ _ _ _ _ _ T) as Hs.
  split; [now rewrite Hpend|]. split; [exact (tr_latch _ _ _ _ _ _ T)|]. split.
  - intros Hq He. now destruct (Hidle _ _ _ _ _ T Hq He).
  - intros Hc tail Hquiet Hlong.
    assert (Hms : zlen (stream ps) <= mem_size s).
    { unfold s. rewrite mem_size_run. exact Hfit. }
    destruct (drains tail s _ _ _ _ _ T Hc Hms Hquiet)
      as (cur2 & queued2 & fly2 & T2 & Et & Hc2).
    assert (Hms2 : zlen (stream ps) <= mem_size (run s tail)) by now rewrite mem_size_run.
    destruct (ticks_left_step (run s tail) (quiet false false) _ _ _ _ _ T2 Hms2)
      as (_ & _ & Hz).
    { apply quiet_capture; [exact Hc2 | reflexivity]. }
    destruct Hz as [Hq He]; [rewrite Et; lia|].
    destruct (Hidle _ _ _ _ _ T2 Hq He) as (Ho & -> & ->).
    split; [exact Hq|]. split; [exact He|]. split; [|split].
    + rewrite (tr_staging _ _ _ _ _ _ T2). simpl.
      pose proof (tr_flight _ _ _ _ _ _ T2) as Hf.
      destruct (capture (run s tail)); auto; congruence.
    + exact (tr_latch _ _ _ _ _ _ T2).
    + unfold data_log in *. rewrite log_app. exact Ho.
Qed.

(** C1 as stated fails for two sessions of 1024 bytes received back to back
    with a consumer that reads on every tick and an output ring buffer of
    65536 bytes: both lengths are queued, the engine ends idle with empty
    queues after writing 2052 bytes, and what it wrote is not the two records
    (the staging buffer refused two bytes of the second session, and the last
    two payload bytes written were read from an empty staging buffer). *)
Lemma back_to_back_sessions_corrupted :
  let ins := back_to_back 1042 in
  let s := run (reset 65536) ins in
  length_log (reset 65536) ins = [1024; 1024] /\
  zlen (stream [ramp 1024; ramp 1024]) = 2052 /\
  packet_queue s = PacketQueue.IDLE /\ length_buffer s = [] /\ packet_buffer s = [] /\
  zlen (data_log (reset 65536) ins) = 2052 /\
  zlen (packet_log (reset 65536) ins) = 2046 /\
  data_log (reset 65536) ins <> stream [ramp 1024; ramp 1024].
Proof.
  intros ins s.
  split; [vm_compute; reflexivity|]. split; [vm_compute; reflexivity|].
  split; [vm_compute; reflexivity|]. split; [vm_compute; reflexivity|].
  split; [vm_compute; reflexivity|]. split; [vm_compute; reflexivity|].
  split; [vm_compute; reflexivity|].
  intros H. apply (f_equal (fun l => nth 2051 l 0)) in H.
  vm_compute in H. discriminate.
Qed.

Lemma order_preserved_witness :
  no_push_refused (reset 8) one_session = true /\
  packet_queue (run (reset 8) one_session) = PacketQueue.IDLE /\
  data_log (reset 8) one_session = [0; 3; 170; 187; 204].
Proof.
  assert (H1 : no_push_refused (reset 8) one_session = true) by (vm_compute; reflexivity).
  assert (H2 : length_log (reset 8) one_session = map zlen [[170; 187; 204]])
    by (vm_compute; reflexivity).
  assert (H3 : packet_log (reset 8) one_session = concat [[170; 187; 204]] ++ [])
    by (vm_compute; reflexivity).
  assert (H4 : Forall (fun p : list Z => zlen p <= 1024) [[170; 187; 204]])
    by (repeat constructor; vm_compute; discriminate).
  assert (H5 : zlen (stream [[170; 187; 204]]) <= 8) by (vm_compute; discriminate).
  assert (H6 : packet_queue (run (reset 8) one_session) = PacketQueue.IDLE)
    by (vm_compute; reflexivity).
  assert (H7 : length_buffer (run (reset 8) one_session) = [])
    by (vm_compute; reflexivity).
  split; [exact H1|]. split; [exact H6|].
  exact (proj1 (proj2 (proj2
           (order_preserved 8 one_session [[170; 187; 204]] [] H1 H2 H3 H4 H5))) H6 H7).
Defined.

(** * Further properties *)

Ltac proj_red :=
  cbn [q_next q_packet_length q_packet_transferred q_overrun q_length_r_en
       q_packet_r_en q_data_w_en q_data_w_data mem_size data_buffer packet_buffer
       length_buffer captured_packet_length packet_length packet_transferred
       overrun capture packet_queue] in *.

(** ** Conservation in the three queues *)

Lemma consumed_head s i :
  consumed s i = if stream_ready i then firstn 1 (data_buffer s) else [].
Proof.
  unfold consumed, stream_valid, stream_payload, Fifo.r_rdy, Fifo.r_data, Fifo.level.
  destruct (data_buffer s) as [|b l].
  - now destruct (stream_ready i).
  - rewrite zlen_cons. pose proof (zlen_nonneg l).
    assert (E : (0 <? 1 + zlen l) = true) by (apply Z.ltb_lt; lia).
    rewrite E. reflexivity.
Qed.

Lemma firstn1_tl {A} (l : list A) : firstn 1 l ++ tl l = l.
Proof. destruct l; reflexivity. Qed.

(** X1: the consumer receives exactly what the engine wrote, in order: along
    any run, the bytes handed to the consumer followed by the bytes left in
    the output ring buffer are the buffer's contents at the start followed by
    the bytes the engine pushed; from reset, where the buffer is empty, they
    are the bytes the engine pushed. *)
Theorem consumer_stream ins : forall s,
  consumed_log s ins ++ data_buffer (run s ins) = data_buffer s ++ data_log s ins.
Proof.
  induction ins as [|i r IH]; intros s.
  - simpl. now rewrite app_nil_r.
  - unfold consumed_log, data_log in *. rewrite run_cons, !log_cons, <- app_assoc.
    rewrite IH, data_buffer_step, consumed_head.
    destruct (stream_ready i); cbv iota.
    + now rewrite !app_assoc, firstn1_tl.
    + now rewrite <- app_assoc.
Qed.

Lemma staging_conserved ins : forall s,
  popped_log s ins ++ packet_buffer (run s ins) = packet_buffer s ++ packet_log s ins.
Proof.
  induction ins as [|i r IH]; intros s.
  - simpl. now rewrite app_nil_r.
  - unfold popped_log, packet_log in *. rewrite run_cons, !log_cons, <- app_assoc.
    rewrite IH, packet_buffer_step. unfold packet_popped.
    destruct (q_packet_r_en (packet_queue_fsm s)); cbv iota.
    + now rewrite !app_assoc, firstn1_tl.
    + now rewrite <- app_assoc.
Qed.

Lemma lengths_conserved ins : forall s,
  length_popped_log s ins ++ length_buffer (run s ins)
  = length_buffer s ++ length_log s ins.
Proof.
  induction ins as [|i r IH]; intros s.
  - simpl. now rewrite app_nil_r.
  - unfold length_popped_log, length_log in *. rewrite run_cons, !log_cons, <- app_assoc.
    rewrite IH, length_buffer_step. unfold length_popped.
    destruct (q_length_r_en (packet_queue_fsm s)); cbv iota.
    + now rewrite !app_assoc, firstn1_tl.
    + now rewrite <- app_assoc.
Qed.

(** X2: the staging buffer and the pending-lengths queue lose and invent
    nothing: after any run from reset, what the engine popped followed by what
    is still queued is what the queue took, in order. *)
Theorem staging_and_lengths_conserved mem_depth ins :
  let s := run (reset mem_depth) ins in
  popped_log (reset mem_depth) ins ++ packet_buffer s = packet_log (reset mem_depth) ins /\
  length_popped_log (reset mem_depth) ins ++ length_buffer s
  = length_log (reset mem_depth) ins.
Proof.
  intros s. subst s. split.
  - now rewrite staging_conserved.
  - now rewrite lengths_conserved.
Qed.

(** ** The output stream's handshake *)

Lemma hold_step s i :
  stream_valid s = true -> stream_ready i = false ->
  stream_valid (step s i) = true /\ stream_payload (step s i) = stream_payload s /\
  consumed s i = [].
Proof.
  intros Hv Hr. unfold consumed. rewrite Hr, andb_false_r.
  unfold stream_valid, stream_payload, Fifo.r_rdy, Fifo.r_data, Fifo.level in *.
  rewrite data_buffer_step, Hr.
  destruct (data_buffer s) as [|b l]; [discriminate Hv|].
  split; [|split; reflexivity].
  rewrite <- app_comm_cons, zlen_cons. apply Z.ltb_lt.
  pose proof (zlen_nonneg (l ++ data_pushed s)). lia.
Qed.

(** X3: a byte offered on the stream is held until it is taken: while the
    consumer keeps [ready] low, [valid] stays high and the payload does not
    change, whatever the engine writes behind it. *)
Theorem stream_holds_until_taken ins : forall s,
  stream_valid s = true ->
  Forall (fun i => stream_ready i = false) ins ->
  stream_valid (run s ins) = true /\ stream_payload (run s ins) = stream_payload s /\
  consumed_log s ins = [].
Proof.
  induction ins as [|i r IH]; intros s Hv Hall.
  - cbn [run consumed_log log]. auto.
  - inversion Hall as [|? ? Hi Hr]; subst.
    destruct (hold_step s i Hv Hi) as (A & B & C).
    destruct (IH (step s i) A Hr) as (A' & B' & C').
    unfold consumed_log in *. rewrite run_cons, log_cons, C, C', B', B. auto.
Qed.

Lemma stream_holds_until_taken_witness :
  stream_valid (run (reset 8) one_session) = true /\
  stream_payload (run (run (reset 8) one_session) [quiet true false; active false false])
  = stream_payload (run (reset 8) one_session).
Proof.
  assert (H : stream_valid (run (reset 8) one_session) = true) by (vm_compute; reflexivity).
  split; [exact H|].
  refine (proj1 (proj2 (stream_holds_until_taken
                          [quiet true false; active false false]
                          (run (reset 8) one_session) H _))).
  repeat constructor.
Defined.

(** ** Capture disabled, and capture enabled in mid-packet *)

Lemma disabled_step m i :
  capture_enable i = false -> step (reset m) i = reset m.
Proof.
  intros He. unfold step, capture_drive, capture_fsm, packet_queue_fsm, reset; simpl.
  rewrite He. rewrite andb_false_r. unfold Fifo.tick, Fifo.accepts. simpl.
  now destruct (stream_ready i).
Qed.

(** X4: while [capture_enable] stays low after reset nothing happens at all:
    the state is the reset state, no queue takes anything and the consumer is
    handed nothing, whatever the receive inputs and the consumer do. *)
Theorem inert_until_enabled mem_depth ins :
  Forall (fun i => capture_enable i = false) ins ->
  run (reset mem_depth) ins = reset mem_depth /\
  data_log (reset mem_depth) ins = [] /\
  packet_log (reset mem_depth) ins = [] /\
  length_log (reset mem_depth) ins = [] /\
  consumed_log (reset mem_depth) ins = [].
Proof.
  induction 1 as [|i r Hi Hr IH].
  - repeat split.
  - destruct IH as (A & B & C & D & E).
    unfold data_log, packet_log, length_log, consumed_log in *.
    rewrite run_cons, !log_cons, (disabled_step _ _ Hi), A, B, C, D, E.
    repeat split.
Qed.

Lemma inert_until_enabled_witness :
  run (reset 8) [quiet false true; byte false false 7; active false true] = reset 8.
Proof.
  refine (proj1 (inert_until_enabled 8
                   [quiet false true; byte false false 7; active false true] _)).
  repeat constructor.
Defined.

(** X5: START does not begin in the middle of a packet: from START, as long
    as on every tick the receive channel is active or capture is disabled, the
    front-end stays in START, raises no [sampling] pulse, stages no byte,
    queues no length and leaves its counter alone. *)
Theorem no_capture_in_mid_packet ins : forall s,
  capture s = Capture.START ->
  Forall (fun i => rx_active i = true \/ capture_enable i = false) ins ->
  capture (run s ins) = Capture.START /\
  packet_log s ins = [] /\ length_log s ins = [] /\ sampled_log s ins = [] /\
  captured_packet_length (run s ins) = captured_packet_length s.
Proof.
  induction ins as [|i r IH]; intros s Hs Hall.
  - repeat split; auto.
  - inversion Hall as [|? ? Hi Hr]; subst.
    assert (H1 : capture (step s i) = Capture.START /\
                 packet_pushed s i = [] /\ length_pushed s i = [] /\ sampled s i = [] /\
                 captured_packet_length (step s i) = captured_packet_length s).
    { unfold step, packet_pushed, length_pushed, sampled, sampling, Fifo.accepts,
        capture_drive, capture_fsm.
      rewrite Hs; simpl. destruct Hi as [-> | ->]; simpl; rewrite ?andb_false_r; auto. }
    destruct H1 as (A & B & C & D & E).
    destruct (IH (step s i) A Hr) as (A' & B' & C' & D' & E').
    unfold packet_log, length_log, sampled_log in *.
    rewrite run_cons, !log_cons, A', B', C', D', E', B, C, D, E. auto.
Qed.

Lemma no_capture_in_mid_packet_witness :
  capture (run (reset 8) mid_packet) = Capture.START /\
  sampled_log (reset 8) mid_packet = [].
Proof.
  assert (H : Forall (fun i => rx_active i = true \/ capture_enable i = false) mid_packet).
  { unfold mid_packet.
    repeat (apply Forall_cons; [first [left; reflexivity | right; reflexivity]|]).
    apply Forall_nil. }
  destruct (no_capture_in_mid_packet mid_packet (reset 8) eq_refl H) as (A & _ & _ & B & _).
  exact (conj A B).
Defined.

(** ** The front-end and the consumer *)

(** X6: the consumer exerts no back-pressure on the front-end: two runs whose
    ticks carry the same receive inputs and the same [capture_enable], from
    states that agree on the capture FSM and its counter, pass through the same
    capture states, show the same [idle] and [capturing], raise [sampling] for
    the same bytes and offer the same lengths, whatever the consumer, the
    engine and the memory depth are in either. *)
Theorem front_end_ignores_consumer ins1 : forall ins2 s1 s2,
  Forall2 same_rx ins1 ins2 ->
  capture s1 = capture s2 -> captured_packet_length s1 = captured_packet_length s2 ->
  capture (run s1 ins1) = capture (run s2 ins2) /\
  captured_packet_length (run s1 ins1) = captured_packet_length (run s2 ins2) /\
  idle (run s1 ins1) = idle (run s2 ins2) /\
  capturing (run s1 ins1) = capturing (run s2 ins2) /\
  sampled_log s1 ins1 = sampled_log s2 ins2 /\
  offered_log s1 ins1 = offered_log s2 ins2.
Proof.
  induction ins1 as [|i1 r1 IH]; intros ins2 s1 s2 Hall Hc Hn;
    inversion Hall as [|? i2 ? r2 Hi Hr]; subst.
  - cbn [run]. unfold idle, capturing. rewrite Hc. auto 8.
  - destruct Hi as (Ea & Ev & Ed & Ee).
    assert (D : capture_drive s1 i1 = capture_drive s2 i2).
    { unfold capture_drive, capture_fsm, byte_received.
      now rewrite Hc, Hn, Ea, Ev, Ed, Ee. }
    assert (Hc' : capture (step s1 i1) = capture (step s2 i2)).
    { unfold step; cbn [capture]. now rewrite D. }
    assert (Hn' : captured_packet_length (step s1 i1) = captured_packet_length (step s2 i2)).
    { unfold step; cbn [captured_packet_length]. now rewrite D. }
    destruct (IH r2 (step s1 i1) (step s2 i2) Hr Hc' Hn') as (A & B & C & E & F & G).
    assert (S1 : sampled s1 i1 = sampled s2 i2).
    { unfold sampled, sampling. now rewrite D, Ed. }
    assert (O1 : length_offered s1 i1 = length_offered s2 i2).
    { unfold length_offered. now rewrite D. }
    unfold sampled_log, offered_log in *.
    rewrite !run_cons, !log_cons, F, G, S1, O1. auto 8.
Qed.

Lemma front_end_ignores_consumer_witness :
  sampled_log (reset 8) (quiet true false :: session false [1; 2])
  = sampled_log (reset 64) (quiet true true :: session true [1; 2]) /\
  offered_log (reset 8) (quiet true false :: session false [1; 2])
  = offered_log (reset 64) (quiet true true :: session true [1; 2]).
Proof.
  assert (H : Forall2 same_rx (quiet true false :: session false [1; 2])
                              (quiet true true :: session true [1; 2])).
  { unfold session, same_rx. cbn [map app]. repeat constructor. }
  destruct (front_end_ignores_consumer _ _ (reset 8) (reset 64) H eq_refl eq_refl)
    as (_ & _ & _ & _ & A & B).
  exact (conj A B).
Defined.

(** ** States reached from reset *)

Lemma data_pushed_none s :
  q_data_w_en (packet_queue_fsm s) = false -> data_pushed s = [].
Proof. unfold data_pushed, Fifo.accepts. now intros ->. Qed.

Lemma engine_sound_reset m : engine_sound (reset m).
Proof. split; simpl; auto; unfold word16; lia. Qed.

Lemma rdy_not_empty (q : Fifo.t) : Fifo.r_rdy q = true -> q <> [].
Proof. intros H ->. discriminate. Qed.

Lemma engine_sound_step s i : engine_sound s -> engine_sound (step s i).
Proof.
  intros [Hq Hl Hp Hph].
  pose proof (data_level_step s i) as Hdl.
  pose proof (hd_word _ Hq) as Hh.
  pose proof (zlen_nonneg (data_buffer s)) as Hz. fold (Fifo.level (data_buffer s)) in Hz.
  split.
  - rewrite length_buffer_step. apply Forall_app. split; [|apply length_pushed_word].
    destruct (q_length_r_en (packet_queue_fsm s)); auto using Forall_tl.
  - now apply engine_delta.
  - unfold word16 in *. destruct (packet_queue s) eqn:Hs;
      unfold step, packet_queue_fsm; rewrite Hs; proj_red;
      repeat (break_if; proj_red); bool_to_Z; try lia;
      rewrite trunc_small; change (2 ^ 17) with 131072; lia.
  - assert (Hlb : Fifo.r_rdy (length_buffer s) = true ->
                  q_length_r_en (packet_queue_fsm s) = false ->
                  length_buffer (step s i) <> []).
    { intros Hr Hn E. rewrite length_buffer_step, Hn in E.
      apply app_eq_nil in E. destruct E as [E _]. now apply rdy_not_empty in Hr. }
    assert (T17 : trunc 17 (packet_transferred s + 1) = packet_transferred s + 1).
    { rewrite trunc_small; change (2 ^ 17) with 131072; lia. }
    assert (T16 : packet_length s <> 0 ->
                  trunc 16 (packet_length s - 1) = packet_length s - 1).
    { intros Hn. unfold word16 in Hl. rewrite trunc_small; change (2 ^ 16) with 65536; lia. }
    remember (Fifo.level (data_buffer (step s i))) as lv' eqn:Elv in *.
    remember (length_buffer (step s i)) as lb' eqn:Elb in *.
    unfold word16 in *. unfold data_pushed, Fifo.accepts, Fifo.w_rdy in Hdl.
    revert Hdl Hlb Hph.
    destruct (packet_queue s) eqn:Hs;
      unfold step, packet_queue_fsm; rewrite Hs; proj_red; rewrite ?T17;
      repeat (break_if; proj_red); intros Hdl Hlb Hph; bool_to_Z;
      repeat match goal with
             | H : (_ || _) = true |- _ => apply orb_true_iff in H; destruct H
             | H : (_ || _) = false |- _ => apply orb_false_iff in H; destruct H
             | H : _ /\ _ |- _ => destruct H
             end; bool_to_Z;
      rewrite ?T16 by assumption;
      cbn [andb] in Hdl; repeat break_if; bool_to_Z;
      unfold zlen in Hdl; cbn [length] in Hdl;
      auto; repeat split; auto; try lia.
Qed.

Lemma engine_sound_run ins : forall s, engine_sound s -> engine_sound (run s ins).
Proof.
  induction ins as [|i r IH]; intros s H; simpl; auto using engine_sound_step.
Qed.

Lemma engine_sound_reached m ins : engine_sound (run (reset m) ins).
Proof. apply engine_sound_run, engine_sound_reset. Qed.

Lemma write_has_room s :
  engine_sound s -> q_data_w_en (packet_queue_fsm s) = true ->
  Fifo.w_rdy (mem_size s) (data_buffer s) = true.
Proof.
  intros [_ Hl Hp Hph] Hw.
  unfold word16 in Hl. unfold Fifo.w_rdy. apply Z.ltb_lt.
  revert Hw Hph. unfold packet_queue_fsm.
  destruct (packet_queue s); proj_red; try discriminate;
    repeat (break_if; proj_red); intros Hw Hph; try discriminate; bool_to_Z;
    repeat match goal with
           | H : (_ || _) = true |- _ => apply orb_true_iff in H; destruct H
           | H : _ /\ _ |- _ => destruct H
           end; bool_to_Z; repeat break_if; bool_to_Z; lia.
Qed.

Lemma write_taken s :
  engine_sound s -> q_data_w_en (packet_queue_fsm s) = true ->
  data_pushed s = [trunc 8 (q_data_w_data (packet_queue_fsm s))].
Proof.
  intros Hs Hw. unfold data_pushed, Fifo.accepts.
  now rewrite Hw, (write_has_room s Hs Hw).
Qed.

(** X7: in every state reached from reset the output ring buffer has room for
    the byte the engine writes: the checks made in INSPECT_PACKET and OVERRUN
    reserve the space, and only the consumer takes bytes out meanwhile; so a
    byte of a header, a payload or a marker is never dropped. *)
Theorem engine_write_never_refused mem_depth ins :
  let s := run (reset mem_depth) ins in
  q_data_w_en (packet_queue_fsm s) = true ->
  Fifo.w_rdy (mem_size s) (data_buffer s) = true /\
  data_pushed s = [trunc 8 (q_data_w_data (packet_queue_fsm s))].
Proof.
  intros s Hw. pose proof (engine_sound_reached mem_depth ins) as Hs. fold s in Hs.
  split; [now apply write_has_room | now apply write_taken].
Qed.

Lemma engine_write_never_refused_witness :
  q_data_w_en (packet_queue_fsm transferring) = true /\
  Fifo.w_rdy (mem_size transferring) (data_buffer transferring) = true.
Proof.
  assert (H : q_data_w_en (packet_queue_fsm transferring) = true) by reflexivity.
  split; [exact H|].
  exact (proj1 (engine_write_never_refused 8
                  (quiet true false :: session false [1] ++ repeat (quiet true false) 3) H)).
Defined.

(** X8: in every state reached from reset, POP_LENGTH finds a length in the
    queue: its unguarded pop never meets an empty queue, and the working length
    it latches is the oldest queued one, a 16-bit value. *)
Theorem pop_length_finds_a_length mem_depth ins :
  let s := run (reset mem_depth) ins in
  packet_queue s = PacketQueue.POP_LENGTH ->
  Fifo.r_rdy (length_buffer s) = true /\
  exists len rest,
    length_buffer s = len :: rest /\ word16 len /\
    forall i, packet_length (step s i) = len /\
              length_buffer (step s i) = rest ++ length_pushed s i.
Proof.
  intros s Hq.
  destruct (engine_sound_reached mem_depth ins) as [Hl _ _ Hph]. fold s in Hl, Hph.
  rewrite Hq in Hph.
  destruct (length_buffer s) as [|len rest] eqn:E; [congruence|].
  split.
  - unfold Fifo.r_rdy, Fifo.level. rewrite zlen_cons. apply Z.ltb_lt.
    pose proof (zlen_nonneg rest). lia.
  - exists len, rest. split; [reflexivity|]. split; [now inversion Hl|].
    intros i. rewrite length_buffer_step.
    unfold step, packet_queue_fsm; rewrite Hq; proj_red. now rewrite E.
Qed.

Lemma pop_length_finds_a_length_witness :
  packet_queue popping = PacketQueue.POP_LENGTH /\
  Fifo.r_rdy (length_buffer popping) = true.
Proof.
  assert (H : packet_queue popping = PacketQueue.POP_LENGTH) by reflexivity.
  split; [exact H|].
  exact (proj1 (pop_length_finds_a_length 8
                  (quiet true false :: session false [1] ++ [quiet true false]) H)).
Defined.

(** X9: in every state reached from reset the 17-bit progress counter is at
    most 65538 and the working length is a 16-bit value, so the increment made
    on each tick of TRANSFER_PACKET never wraps. *)
Theorem progress_counter_never_wraps mem_depth ins i :
  let s := run (reset mem_depth) ins in
  0 <= packet_transferred s <= 65538 /\
  0 <= packet_length s < 65536 /\
  (packet_queue s = PacketQueue.TRANSFER_PACKET ->
     packet_transferred (step s i) = packet_transferred s + 1 /\
     packet_transferred s + packet_length s <= 65537).
Proof.
  intros s.
  destruct (engine_sound_reached mem_depth ins) as [_ Hl Hp Hph]. fold s in Hl, Hp, Hph.
  split; [exact Hp|]. split; [exact Hl|]. intros Hq. rewrite Hq in Hph.
  split; [|apply Hph].
  unfold step, packet_queue_fsm; rewrite Hq; proj_red.
  repeat (break_if; proj_red); rewrite trunc_small; change (2 ^ 17) with 131072; lia.
Qed.

Lemma progress_counter_never_wraps_witness :
  packet_queue transferring = PacketQueue.TRANSFER_PACKET /\
  packet_transferred (step transferring (quiet true false))
  = packet_transferred transferring + 1.
Proof.
  assert (H : packet_queue transferring = PacketQueue.TRANSFER_PACKET) by reflexivity.
  split; [exact H|].
  exact (proj1 (proj2 (proj2 (progress_counter_never_wraps 8
                  (quiet true false :: session false [1] ++ repeat (quiet true false) 3)
                  (quiet true false))) H)).
Defined.

(** ** The output is framed *)

Lemma header_byte len lo hi :
  0 <= lo -> hi = lo + 8 -> trunc 8 (slice len lo hi) = slice len lo hi.
Proof. intros H ->. apply trunc8_byte, slice_byte, H. Qed.

Lemma framing_step s i whole partial :
  engine_sound s -> framed whole -> frame_begun s partial ->
  exists whole' partial',
    (whole ++ partial) ++ data_pushed s = whole' ++ partial' /\
    framed whole' /\ frame_begun (step s i) partial'.
Proof.
  intros Hs Hw Hb.
  pose proof (write_taken s Hs) as Wt.
  pose proof (data_pushed_none s) as Wn.
  destruct Hs as [_ Hl Hp Hph].
  assert (T17 : trunc 17 (packet_transferred s + 1) = packet_transferred s + 1).
  { rewrite trunc_small; change (2 ^ 17) with 131072; lia. }
  assert (T16 : packet_length s <> 0 ->
                trunc 16 (packet_length s - 1) = packet_length s - 1).
  { intros Hn. unfold word16 in Hl. rewrite trunc_small; change (2 ^ 16) with 65536; lia. }
  remember (data_pushed s) as dp eqn:Edp. clear Edp.
  unfold frame_begun in *.
  revert Wt Wn Hph Hb.
  destruct (packet_queue s) eqn:Hq;
    unfold step, packet_queue_fsm; rewrite Hq; proj_red; rewrite ?T17;
    intros Wt Wn Hph Hb.
  - (* IDLE *)
    subst partial. rewrite (Wn eq_refl). exists whole, []. split; [now rewrite !app_nil_r|].
    split; [exact Hw|]. now destruct (Fifo.r_rdy (length_buffer s)).
  - subst partial. rewrite (Wn eq_refl). exists whole, []. split; [now rewrite !app_nil_r|]. auto.
  - subst partial. rewrite (Wn eq_refl). exists whole, []. split; [now rewrite !app_nil_r|].
    split; [exact Hw|]. break_if; proj_red; auto.
  - (* TRANSFER_PACKET *)
    destruct Hb as [[H0 ->] | [[H1 ->] | (H2 & len & written & Wl & Wb & Wz & ->)]].
    + rewrite H0 in *. cbn [Z.eqb] in *. proj_red.
      rewrite (Wt eq_refl), (header_byte _ 8 16) by lia.
      exists whole, [slice (packet_length s) 8 16]. split; [now rewrite app_nil_r|].
      split; [exact Hw|]. right; left. split; reflexivity.
    + rewrite H1 in *. cbn [Z.eqb Pos.eqb] in *. proj_red.
      rewrite (Wt eq_refl), (header_byte _ 0 8) by lia.
      exists whole, [slice (packet_length s) 8 16; slice (packet_length s) 0 8].
      split; [now rewrite <- app_assoc|]. split; [exact Hw|].
      right; right. split; [lia|]. exists (packet_length s), [].
      split; [exact Hl|]. split; [constructor|]. split; reflexivity.
    + destruct (packet_transferred s =? 0) eqn:E0; [bool_to_Z; lia|].
      destruct (packet_transferred s =? 1) eqn:E1; [bool_to_Z; lia|].
      destruct (packet_length s =? 0) eqn:El; cbn [negb] in *; proj_red; bool_to_Z.
      * rewrite (Wn eq_refl), app_nil_r.
        exists (whole ++ slice len 8 16 :: slice len 0 8 :: written), [].
        split; [now rewrite app_nil_r|]. split; [|reflexivity].
        apply framed_record; auto. lia.
      * rewrite (Wt eq_refl), T16 by assumption.
        exists whole, (slice len 8 16 :: slice len 0 8 :: written
                       ++ [trunc 8 (Fifo.r_data (packet_buffer s))]).
        split; [now rewrite <- !app_assoc|]. split; [exact Hw|].
        right; right. split; [lia|].
        exists len, (written ++ [trunc 8 (Fifo.r_data (packet_buffer s))]).
        split; [exact Wl|]. split.
        { apply Forall_app. split; [exact Wb|]. constructor; [apply trunc8_is_byte|constructor]. }
        split; [|reflexivity]. rewrite zlen_app. change (zlen [_]) with 1. lia.
  - (* OVERRUN *)
    subst partial. rewrite (Wn eq_refl). exists whole, []. split; [now rewrite !app_nil_r|].
    split; [exact Hw|]. break_if; proj_red; auto. right. split; [lia|reflexivity].
  - (* CLEAR_OVERRUN *)
    destruct Hph as (_ & Hle & _).
    destruct Hb as [[H1 ->] | [H1 ->]].
    + rewrite H1 in *. cbn [Z.eqb Pos.eqb orb] in *. proj_red.
      rewrite (Wt eq_refl). change (trunc 8 255) with 255.
      exists (whole ++ [255; 255]), []. split; [now rewrite <- !app_assoc|].
      split; [now apply framed_sentinel|]. right. split; [lia|reflexivity].
    + destruct (packet_transferred s =? 0) eqn:E0; bool_to_Z.
      * cbn [orb] in *. proj_red. rewrite (Wt eq_refl). change (trunc 8 255) with 255.
        exists whole, [255]. split; [now rewrite app_nil_r|]. split; [exact Hw|].
        left. split; [lia|reflexivity].
      * destruct (packet_transferred s =? 1) eqn:E1; bool_to_Z; [lia|].
        cbn [orb] in *.
        destruct (packet_length s =? 0); cbn [negb] in *; proj_red;
          rewrite (Wn eq_refl); exists whole, []; (split; [now rewrite !app_nil_r|]);
          (split; [exact Hw|]); auto.
Qed.

Lemma framing_run ins : forall s whole partial,
  engine_sound s -> framed whole -> frame_begun s partial ->
  exists whole' partial',
    (whole ++ partial) ++ data_log s ins = whole' ++ partial' /\
    framed whole' /\ frame_begun (run s ins) partial'.
Proof.
  induction ins as [|i r IH]; intros s whole partial Hs Hw Hb.
  - exists whole, partial. cbn [data_log log run]. rewrite app_nil_r. auto.
  - destruct (framing_step s i whole partial Hs Hw Hb) as (w1 & p1 & E1 & Hw1 & Hb1).
    destruct (IH (step s i) w1 p1 (engine_sound_step s i Hs) Hw1 Hb1)
      as (w2 & p2 & E2 & Hw2 & Hb2).
    exists w2, p2. split; [|auto].
    unfold data_log in *. rewrite log_cons, app_assoc, E1. exact E2.
Qed.

(** X10: whatever the inputs, the bytes the engine has written to the output
    ring buffer since reset are a whole number of frames (a 16-bit length,
    high byte first, followed by exactly that many bytes; or the marker 0xFF
    0xFF), followed by the beginning of the frame the engine is writing.  With
    the engine in IDLE there is no such beginning: the output is a whole number
    of frames. *)
Theorem output_framed mem_depth ins :
  let s := run (reset mem_depth) ins in
  (exists whole partial,
     data_log (reset mem_depth) ins = whole ++ partial /\
     framed whole /\ frame_begun s partial) /\
  (packet_queue s = PacketQueue.IDLE -> framed (data_log (reset mem_depth) ins)).
Proof.
  intros s.
  destruct (framing_run ins (reset mem_depth) [] [] (engine_sound_reset mem_depth)
              framed_nil eq_refl) as (w & p & E & Hw & Hb).
  fold s in Hb. cbn [app] in E. split.
  - exists w, p. auto.
  - intros Hq. unfold frame_begun in Hb. rewrite Hq in Hb. subst p.
    rewrite E, app_nil_r. exact Hw.
Qed.

Lemma output_framed_witness :
  packet_queue (run (reset 8) one_session) = PacketQueue.IDLE /\
  framed (data_log (reset 8) one_session).
Proof.
  assert (H : packet_queue (run (reset 8) one_session) = PacketQueue.IDLE)
    by (vm_compute; reflexivity).
  split; [exact H|].
  exact (proj2 (output_framed 8 one_session) H).
Defined.

(** ** The overrun latch and the OVERRUN state *)

Lemma overrun_run_iff ins : forall s,
  overrun (run s ins) = true <->
  overrun s = true \/
  exists a i b, ins = a ++ i :: b /\ packet_queue (run s a) = PacketQueue.OVERRUN.
Proof.
  induction ins as [|i r IH]; intros s.
  - cbn [run]. split; [auto|]. intros [H|(a & j & b & E & _)]; [exact H|].
    now destruct a.
  - rewrite run_cons, IH, overrun_step. split.
    + intros [H|(a & j & b & E & H)].
      * destruct (packet_queue s) eqn:Hq; auto.
        right. exists [], i, r. auto.
      * right. exists (i :: a), j, b. split; [now rewrite E|exact H].
    + intros [H|(a & j & b & E & H)].
      * left. destruct (packet_queue s); auto.
      * destruct a as [|i' a].
        -- cbn [run] in H. left. now rewrite H.
        -- injection E as -> ->. right. exists a, j, b. auto.
Qed.

(** X11: the overrun flag is raised by the OVERRUN state and by nothing else:
    after a run from reset it is true exactly when the engine was in OVERRUN at
    the start of one of the run's ticks. *)
Theorem overrun_only_through_OVERRUN mem_depth ins :
  overrun (run (reset mem_depth) ins) = true <->
  exists a i b,
    ins = a ++ i :: b /\ packet_queue (run (reset mem_depth) a) = PacketQueue.OVERRUN.
Proof.
  rewrite overrun_run_iff. split; [|auto].
  intros [H|H]; [discriminate H|exact H].
Qed.

(** ** Records admitted are written without a stall *)

Lemma busy_step s i :
  engine_sound s ->
  packet_queue s = PacketQueue.TRANSFER_PACKET \/
  packet_queue s = PacketQueue.CLEAR_OVERRUN ->
  1 <= busy s /\
  (busy s = 1 ->
     packet_queue (step s i) = PacketQueue.IDLE /\ packet_length (step s i) = 0 /\
     data_pushed s = []) /\
  (1 < busy s ->
     packet_queue (step s i) = packet_queue s /\ busy (step s i) = busy s - 1 /\
     (packet_queue s = PacketQueue.TRANSFER_PACKET -> zlen (data_pushed s) = 1)).
Proof.
  intros Hs Hq.
  pose proof (write_taken s Hs) as Wt.
  pose proof (data_pushed_none s) as Wn.
  destruct Hs as [_ Hl Hp Hph].
  assert (T17 : trunc 17 (packet_transferred s + 1) = packet_transferred s + 1).
  { rewrite trunc_small; change (2 ^ 17) with 131072; lia. }
  assert (T16 : packet_length s <> 0 ->
                trunc 16 (packet_length s - 1) = packet_length s - 1).
  { intros Hn. unfold word16 in Hl. rewrite trunc_small; change (2 ^ 16) with 65536; lia. }
  remember (data_pushed s) as dp eqn:Edp. clear Edp.
  unfold word16 in Hl. unfold busy.
  revert Wt Wn Hph.
  destruct Hq as [Hq|Hq]; unfold step, packet_queue_fsm; rewrite Hq; proj_red;
    rewrite ?T17; intros Wt Wn Hph;
    repeat (break_if; proj_red); bool_to_Z;
    repeat match goal with
           | H : (_ || _) = true |- _ => apply orb_true_iff in H; destruct H
           | H : (_ || _) = false |- _ => apply orb_false_iff in H; destruct H
           | H : _ /\ _ |- _ => destruct H
           end; bool_to_Z; try lia;
    rewrite ?T16 in * by assumption;
    try (rewrite (Wt eq_refl)); try (rewrite (Wn eq_refl));
    repeat split; intros; try reflexivity; try discriminate; try lia.
Qed.

Lemma busy_run ins : forall s,
  engine_sound s ->
  packet_queue s = PacketQueue.TRANSFER_PACKET \/
  packet_queue s = PacketQueue.CLEAR_OVERRUN ->
  zlen ins = busy s ->
  packet_queue (run s ins) = PacketQueue.IDLE /\
  packet_length (run s ins) = 0 /\
  (forall a b, ins = a ++ b -> b <> [] -> packet_queue (run s a) = packet_queue s) /\
  (packet_queue s = PacketQueue.TRANSFER_PACKET -> zlen (data_log s ins) = busy s - 1).
Proof.
  induction ins as [|i r IH]; intros s Hs Hq Hn.
  - destruct (busy_step s (quiet false false) Hs Hq) as (B1 & _).
    change (zlen (@nil Inputs)) with 0 in Hn. lia.
  - destruct (busy_step s i Hs Hq) as (B1 & Blast & Bmore).
    rewrite zlen_cons in Hn. pose proof (zlen_nonneg r) as Hr.
    destruct (Z.eq_dec (busy s) 1) as [E|E].
    + destruct (Blast E) as (L1 & L2 & L3).
      assert (r = []) by (destruct r; [reflexivity | rewrite zlen_cons in Hn;
                          pose proof (zlen_nonneg r); lia]).
      subst r. cbn [run]. split; [exact L1|]. split; [exact L2|]. split.
      * intros a b Eab Hb. destruct a as [|j a]; [reflexivity|].
        injection Eab as _ Eab. symmetry in Eab. apply app_eq_nil in Eab.
        destruct Eab as [_ Eb]. contradiction.
      * intros _. unfold data_log. rewrite log_cons, L3. cbn [log app].
        change (zlen (@nil Z)) with 0. lia.
    + destruct (Bmore ltac:(lia)) as (M1 & M2 & M3).
      destruct (IH (step s i) (engine_sound_step s i Hs) ltac:(now rewrite M1) ltac:(lia))
        as (I1 & I2 & I3 & I4).
      rewrite run_cons. split; [exact I1|]. split; [exact I2|]. split.
      * intros a b Eab Hb. destruct a as [|j a]; [reflexivity|].
        injection Eab as <- Eab. rewrite run_cons, (I3 a b Eab Hb). exact M1.
      * intros Ht. unfold data_log in *. rewrite log_cons, zlen_app, (M3 Ht).
        rewrite I4 by (now rewrite M1). lia.
Qed.

(** X12: once the engine has entered TRANSFER_PACKET or CLEAR_OVERRUN it
    cannot be held up: in a state reached from reset, after exactly the working
    length plus the header (or marker) bytes still due plus one closing tick it
    is back in IDLE with the working length at zero, it stays in its state on
    every tick before, and a transfer pushes a byte to the output ring buffer
    on every tick but the last; whatever the consumer and the receive side do
    meanwhile. *)
Theorem transfer_never_stalls mem_depth pre ins :
  let s := run (reset mem_depth) pre in
  packet_queue s = PacketQueue.TRANSFER_PACKET \/
  packet_queue s = PacketQueue.CLEAR_OVERRUN ->
  zlen ins = busy s ->
  packet_queue (run s ins) = PacketQueue.IDLE /\
  packet_length (run s ins) = 0 /\
  (forall a b, ins = a ++ b -> b <> [] -> packet_queue (run s a) = packet_queue s) /\
  (packet_queue s = PacketQueue.TRANSFER_PACKET -> zlen (data_log s ins) = busy s - 1).
Proof.
  intros s. apply busy_run. apply engine_sound_reached.
Qed.

Lemma transfer_never_stalls_witness :
  zlen (repeat (quiet true false) 4) = busy transferring /\
  packet_queue (run transferring (repeat (quiet true false) 4)) = PacketQueue.IDLE.
Proof.
  assert (H : zlen (repeat (quiet true false) 4) = busy transferring) by reflexivity.
  split; [exact H|].
  exact (proj1 (transfer_never_stalls 8
                  (quiet true false :: session false [1] ++ repeat (quiet true false) 3)
                  (repeat (quiet true false) 4) (or_introl eq_refl) H)).
Defined.

(** ** Captures that fit never overrun *)

Lemma stream_size_one len : stream_size [len] = len + 2.
Proof. unfold stream_size. simpl. lia. Qed.

Lemma popped_lengths_word ins : forall s,
  engine_sound s -> Forall word16 (length_popped_log s ins).
Proof.
  induction ins as [|i r IH]; intros s Hs; unfold length_popped_log in *.
  - constructor.
  - rewrite log_cons. apply Forall_app. split; [|apply IH, engine_sound_step, Hs].
    unfold length_popped. destruct Hs as [Hq _ _ _].
    destruct (q_length_r_en (packet_queue_fsm s)); [|constructor].
    destruct Hq; simpl; constructor; auto.
Qed.

Lemma length_popped_only_pop s :
  packet_queue s <> PacketQueue.POP_LENGTH -> length_popped s = [].
Proof.
  intros H. unfold length_popped, packet_queue_fsm.
  destruct (packet_queue s); try congruence;
    repeat match goal with
           | |- context [Fifo.r_rdy ?x] => destruct (Fifo.r_rdy x)
           | |- context [?a <? ?b] => destruct (a <? b)
           | |- context [?a <=? ?b] => destruct (a <=? b)
           | |- context [?a =? ?b] => destruct (a =? b)
           end; reflexivity.
Qed.

Lemma calm_reset m : calm (reset m) [].
Proof. split; [reflexivity|]. simpl. unfold Fifo.level, zlen, stream_size. simpl. lia. Qed.

Lemma calm_step s i taken :
  engine_sound s -> calm s taken ->
  stream_size (taken ++ length_popped s) <= mem_size s ->
  calm (step s i) (taken ++ length_popped s).
Proof.
  intros Hs [Ho Hc] Hfit.
  pose proof (data_level_step s i) as Hdl.
  pose proof (write_taken s Hs) as Wt.
  pose proof (data_pushed_none s) as Wn.
  pose proof (zlen_nonneg (data_buffer s)) as Hz. fold (Fifo.level (data_buffer s)) in Hz.
  destruct Hs as [Hq Hl Hp Hph].
  assert (Hpop : packet_queue s = PacketQueue.POP_LENGTH \/
                 packet_queue s <> PacketQueue.POP_LENGTH)
    by (destruct (packet_queue s); auto; right; discriminate).
  destruct Hpop as [Hpop|Hpop].
  - rewrite Hpop in *.
    destruct (length_buffer s) as [|len rest] eqn:Elb; [congruence|].
    assert (Ep : length_popped s = [len]).
    { unfold length_popped, packet_queue_fsm. rewrite Hpop, Elb. reflexivity. }
    rewrite Ep in *. rewrite stream_size_app, stream_size_one in *.
    rewrite (Wn ltac:(unfold packet_queue_fsm; now rewrite Hpop)) in Hdl.
    change (zlen (@nil Z)) with 0 in Hdl.
    split.
    + rewrite overrun_step, Hpop. exact Ho.
    + assert (E1 : packet_queue (step s i) = PacketQueue.INSPECT_PACKET).
      { unfold step, packet_queue_fsm. now rewrite Hpop. }
      assert (E2 : packet_length (step s i) = len).
      { unfold step, packet_queue_fsm. rewrite Hpop, Elb. reflexivity. }
      rewrite E1, E2. change (Fifo.level (data_buffer s) <= stream_size taken) in Hc.
      rewrite ?stream_size_app, ?stream_size_one. lia.
  - rewrite (length_popped_only_pop s Hpop), app_nil_r in *.
    assert (T17 : trunc 17 (packet_transferred s + 1) = packet_transferred s + 1).
    { rewrite trunc_small; change (2 ^ 17) with 131072; lia. }
    assert (T16 : packet_length s <> 0 ->
                  trunc 16 (packet_length s - 1) = packet_length s - 1).
    { intros Hn. unfold word16 in Hl. rewrite trunc_small; change (2 ^ 16) with 65536; lia. }
    unfold word16 in Hl. unfold calm.
    rewrite overrun_step.
    remember (Fifo.level (data_buffer (step s i))) as lv' eqn:Elv in *.
    remember (data_pushed s) as dp eqn:Edp. clear Edp.
    revert Wt Wn Hph Hc Hdl.
    destruct (packet_queue s) eqn:Hs; try congruence;
      unfold step, packet_queue_fsm; rewrite Hs; proj_red; rewrite ?T17;
      intros Wt Wn Hph Hc Hdl; try contradiction;
      repeat (break_if; proj_red); bool_to_Z;
      repeat match goal with
             | H : _ /\ _ |- _ => destruct H
             end;
      rewrite ?T16 by assumption;
      try (rewrite (Wt eq_refl) in Hdl); try (rewrite (Wn eq_refl) in Hdl);
      unfold zlen in Hdl; cbn [length] in Hdl;
      (split; [assumption|]); try lia.
Qed.

Lemma calm_run ins : forall s taken,
  engine_sound s -> calm s taken ->
  stream_size (taken ++ length_popped_log s ins) <= mem_size s ->
  calm (run s ins) (taken ++ length_popped_log s ins).
Proof.
  induction ins as [|i r IH]; intros s taken Hs Hc Hfit.
  - cbn [length_popped_log log run]. now rewrite app_nil_r.
  - unfold length_popped_log in *. rewrite log_cons, app_assoc in *. rewrite run_cons.
    pose proof (popped_lengths_word r (step s i) (engine_sound_step s i Hs)) as Hw.
    apply stream_size_nonneg in Hw. unfold length_popped_log in Hw.
    rewrite stream_size_app in Hfit.
    apply IH.
    + apply engine_sound_step, Hs.
    + apply calm_step; auto. lia.
    + rewrite mem_size_step, stream_size_app. exact Hfit.
Qed.

(** X13: if the records of the lengths queued during a run from reset (two
    header bytes and the payload, for each) together fit in [mem_depth], no
    state of the run is OVERRUN or CLEAR_OVERRUN and the overrun flag stays
    false, even if the consumer never reads. *)
Theorem no_overrun_within_capacity mem_depth ins :
  stream_size (length_log (reset mem_depth) ins) <= mem_depth ->
  forall a b, ins = a ++ b ->
    overrun (run (reset mem_depth) a) = false /\
    packet_queue (run (reset mem_depth) a) <> PacketQueue.OVERRUN /\
    packet_queue (run (reset mem_depth) a) <> PacketQueue.CLEAR_OVERRUN.
Proof.
  intros Hfit a b ->.
  pose proof (lengths_conserved a (reset mem_depth)) as Hc. cbn [reset length_buffer app] in Hc.
  unfold length_log in Hfit. rewrite log_app in Hfit. fold length_log in Hfit.
  rewrite <- Hc, !stream_size_app in Hfit.
  pose proof (stream_size_nonneg _ (es_queue _ (engine_sound_reached mem_depth a))) as H1.
  pose proof (stream_size_nonneg _ (length_log_word b (run (reset mem_depth) a))) as H2.
  destruct (calm_run a (reset mem_depth) [] (engine_sound_reset mem_depth)
              (calm_reset mem_depth)) as [Ho Hq].
  - cbn [app reset mem_size]. lia.
  - split; [exact Ho|]. destruct (packet_queue (run (reset mem_depth) a));
      try contradiction; split; discriminate.
Qed.

Lemma no_overrun_within_capacity_witness :
  stream_size (length_log (reset 8) one_session) <= 8 /\
  overrun (run (reset 8) one_session) = false.
Proof.
  assert (H : stream_size (length_log (reset 8) one_session) <= 8)
    by (vm_compute; discriminate).
  split; [exact H|].
  exact (proj1 (no_overrun_within_capacity 8 one_session H one_session []
                  (eq_sym (app_nil_r one_session)))).
Defined.

(** ** A memory of fewer than two bytes *)

Lemma shallow_step s i :
  engine_sound s -> mem_size s < 2 -> data_buffer s = [] ->
  packet_queue s <> PacketQueue.TRANSFER_PACKET ->
  packet_queue s <> PacketQueue.CLEAR_OVERRUN ->
  data_pushed s = [] /\ data_buffer (step s i) = [] /\
  packet_queue (step s i) <> PacketQueue.TRANSFER_PACKET /\
  packet_queue (step s i) <> PacketQueue.CLEAR_OVERRUN /\
  (packet_queue s = PacketQueue.OVERRUN -> packet_queue (step s i) = PacketQueue.OVERRUN).
Proof.
  intros [_ Hl _ _] Hm Hd Ht Hc. unfold word16 in Hl.
  assert (Hp : data_pushed s = []).
  { apply data_pushed_none. unfold packet_queue_fsm.
    destruct (packet_queue s); try congruence; reflexivity. }
  split; [exact Hp|]. split.
  { rewrite data_buffer_step, Hp, Hd. now destruct (stream_ready i). }
  unfold step, packet_queue_fsm. cbn [packet_queue]. rewrite Hd.
  change (Fifo.level []) with 0.
  destruct (packet_queue s); try congruence; cbn [q_next];
    repeat break_if; bool_to_Z; try lia; repeat split; try discriminate; auto.
Qed.

(** X14: with [mem_depth] below 2 (0 passes the parity check of [__init__])
    the analyzer never outputs anything: no byte is ever written to the output
    ring buffer, [stream.valid] is never raised, and the engine, once it has
    reached OVERRUN with the first length it pops, stays there for ever. *)
Theorem shallow_memory_never_outputs mem_depth ins :
  mem_depth < 2 ->
  let s := run (reset mem_depth) ins in
  data_log (reset mem_depth) ins = [] /\ stream_valid s = false /\
  packet_queue s <> PacketQueue.TRANSFER_PACKET /\
  packet_queue s <> PacketQueue.CLEAR_OVERRUN /\
  (packet_queue s = PacketQueue.OVERRUN ->
   forall more, packet_queue (run s more) = PacketQueue.OVERRUN).
Proof.
  intros Hm s.
  assert (G : forall l t, engine_sound t -> mem_size t < 2 -> data_buffer t = [] ->
            packet_queue t <> PacketQueue.TRANSFER_PACKET ->
            packet_queue t <> PacketQueue.CLEAR_OVERRUN ->
            data_log t l = [] /\ data_buffer (run t l) = [] /\
            packet_queue (run t l) <> PacketQueue.TRANSFER_PACKET /\
            packet_queue (run t l) <> PacketQueue.CLEAR_OVERRUN /\
            (packet_queue t = PacketQueue.OVERRUN ->
             packet_queue (run t l) = PacketQueue.OVERRUN)).
  { induction l as [|i r IH]; intros t Hs Hmt Hd Ht Hc.
    - cbn [run data_log log]. auto.
    - destruct (shallow_step t i Hs Hmt Hd Ht Hc) as (A & B & C & D & E).
      destruct (IH (step t i) (engine_sound_step t i Hs) Hmt B C D) as (A' & B' & C' & D' & E').
      unfold data_log in *. rewrite run_cons, log_cons, A, A'. auto 8. }
  destruct (G ins (reset mem_depth) (engine_sound_reset mem_depth) Hm eq_refl
              ltac:(discriminate) ltac:(discriminate)) as (A & B & C & D & _).
  fold s in B, C, D.
  split; [exact A|]. split; [unfold stream_valid; now rewrite B|].
  split; [exact C|]. split; [exact D|].
  intros Ho more.
  assert (Hms : mem_size s < 2) by (unfold s; now rewrite mem_size_run).
  destruct (G more s (engine_sound_reached mem_depth ins) Hms B C D) as (_ & _ & _ & _ & E).
  exact (E Ho).
Qed.

Lemma shallow_memory_never_outputs_witness :
  init 0 = inr {| cfg_mem_size := 0 |} /\
  data_log (reset 0) one_session = [] /\
  stream_valid (run (reset 0) one_session) = false.
Proof.
  split; [reflexivity|].
  destruct (shallow_memory_never_outputs 0 one_session ltac:(lia)) as (A & B & _).
  exact (conj A B).
Defined.

(** ** Leaving OVERRUN *)

Lemma data_level_bounded_step s i :
  0 <= mem_size s -> Fifo.level (data_buffer s) <= mem_size s ->
  Fifo.level (data_buffer (step s i)) <= mem_size s.
Proof.
  intros Hm Hl. pose proof (data_level_step s i) as H.
  unfold data_pushed, Fifo.accepts, Fifo.w_rdy in H.
  destruct (q_data_w_en (packet_queue_fsm s)); cbn [andb] in H.
  - destruct (Fifo.level (data_buffer s) <? mem_size s) eqn:E; bool_to_Z;
      [change (zlen [_]) with 1 in H | change (zlen (@nil Z)) with 0 in H]; lia.
  - change (zlen (@nil Z)) with 0 in H. lia.
Qed.

Lemma data_level_bounded ins : forall s,
  0 <= mem_size s -> Fifo.level (data_buffer s) <= mem_size s ->
  Fifo.level (data_buffer (run s ins)) <= mem_size s.
Proof.
  induction ins as [|i r IH]; intros s Hm Hl; [exact Hl|].
  rewrite run_cons. rewrite <- (mem_size_step s i). apply IH.
  - now rewrite mem_size_step.
  - rewrite mem_size_step. now apply data_level_bounded_step.
Qed.

Lemma overrun_read s i :
  packet_queue s = PacketQueue.OVERRUN ->
  mem_size s < Fifo.level (data_buffer s) + 2 -> 2 <= mem_size s ->
  stream_ready i = true ->
  packet_queue (step s i) = PacketQueue.OVERRUN /\
  Fifo.level (data_buffer (step s i)) = Fifo.level (data_buffer s) - 1.
Proof.
  intros Hq Hfull Hm Hr. split.
  - unfold step, packet_queue_fsm. rewrite Hq. cbn [packet_queue q_next].
    destruct (Fifo.level (data_buffer s) + 2 <=? mem_size s) eqn:E; bool_to_Z; [lia|reflexivity].
  - rewrite data_buffer_step, Hr.
    rewrite (data_pushed_none s) by (unfold packet_queue_fsm; now rewrite Hq).
    rewrite app_nil_r. unfold Fifo.level in *. apply zlen_tl_pos. lia.
Qed.

(** X15: in a state reached from reset with [mem_depth] at least 2, an engine
    held in OVERRUN needs the consumer to take at most two bytes: if the
    consumer is ready on the next two ticks, the engine is in CLEAR_OVERRUN,
    with the overrun flag set, after one, two or three ticks. *)
Theorem overrun_resolves_after_two_reads mem_depth pre i1 i2 i3 :
  let s := run (reset mem_depth) pre in
  2 <= mem_depth ->
  packet_queue s = PacketQueue.OVERRUN ->
  stream_ready i1 = true -> stream_ready i2 = true ->
  exists a b,
    [i1; i2; i3] = a ++ b /\ a <> [] /\
    packet_queue (run s a) = PacketQueue.CLEAR_OVERRUN /\ overrun (run s a) = true.
Proof.
  intros s Hm Hq H1 H2.
  assert (Hms : mem_size s = mem_depth) by (unfold s; now rewrite mem_size_run).
  assert (Hl : Fifo.level (data_buffer s) <= mem_size s).
  { unfold s. rewrite mem_size_run. apply data_level_bounded; cbn [reset mem_size data_buffer].
    - lia.
    - change (Fifo.level []) with 0. lia. }
  assert (Leave : forall t i, packet_queue t = PacketQueue.OVERRUN ->
            Fifo.level (data_buffer t) + 2 <= mem_size t ->
            packet_queue (step t i) = PacketQueue.CLEAR_OVERRUN /\ overrun (step t i) = true).
  { intros t i Ht Hr. split; [apply (overrun_leaves t i Ht Hr)|].
    rewrite overrun_step. now rewrite Ht. }
  destruct (Z_le_gt_dec (Fifo.level (data_buffer s) + 2) (mem_size s)) as [R0|F0].
  { exists [i1], [i2; i3]. split; [reflexivity|]. split; [discriminate|].
    cbn [run]. now apply Leave. }
  destruct (overrun_read s i1 Hq ltac:(lia) ltac:(lia) H1) as (Q1 & L1).
  pose proof (mem_size_step s i1) as M1.
  destruct (Z_le_gt_dec (Fifo.level (data_buffer (step s i1)) + 2) (mem_size (step s i1)))
    as [R1|F1].
  { exists [i1; i2], [i3]. split; [reflexivity|]. split; [discriminate|].
    cbn [run]. now apply Leave. }
  destruct (overrun_read (step s i1) i2 Q1 ltac:(lia) ltac:(lia) H2) as (Q2 & L2).
  pose proof (mem_size_step (step s i1) i2) as M2.
  exists [i1; i2; i3], []. split; [reflexivity|]. split; [discriminate|].
  cbn [run]. apply Leave; [exact Q2 | lia].
Qed.

Lemma overrun_resolves_after_two_reads_witness :
  packet_queue (run (reset 8) held_trace) = PacketQueue.OVERRUN /\
  exists a b,
    [quiet true true; quiet true true; quiet true true] = a ++ b /\ a <> [] /\
    packet_queue (run (run (reset 8) held_trace) a) = PacketQueue.CLEAR_OVERRUN /\
    overrun (run (run (reset 8) held_trace) a) = true.
Proof.
  assert (H : packet_queue (run (reset 8) held_trace) = PacketQueue.OVERRUN)
    by (vm_compute; reflexivity).
  split; [exact H|].
  exact (overrun_resolves_after_two_reads 8 held_trace
           (quiet true true) (quiet true true) (quiet true true)
           ltac:(lia) H eq_refl eq_refl).
Defined.

(** ** TRANSFER_PACKET, tick by tick (C7) *)

Lemma staging_holds_bytes ins : forall s,
  Forall is_byte (packet_buffer s) -> Forall is_byte (packet_buffer (run s ins)).
Proof.
  induction ins as [|i r IH]; intros s H; [exact H|].
  rewrite run_cons. apply IH. rewrite packet_buffer_step. apply Forall_app. split.
  - destruct (q_packet_r_en (packet_queue_fsm s)); auto using Forall_tl.
  - unfold packet_pushed.
    destruct (Fifo.accepts _ _ _); [constructor; [apply trunc8_is_byte | constructor] | constructor].
Qed.

(** C7, as the code has it, for every state reached from reset.  In
    TRANSFER_PACKET the progress counter advances by one on every tick.  On
    progress step 0 the high byte of the working length, on step 1 its low
    byte, is appended to the output ring buffer (behind what the consumer
    leaves in it), and neither tick touches the staging buffer or the working
    length.  On every later tick with a nonzero working length the working
    length is decremented and one byte is appended to the output ring buffer:
    when the staging buffer is not empty, its oldest byte, which is removed
    from it; when it is empty, the value on its read port, and nothing is
    removed.  On a later tick with a zero working length nothing is written or
    removed and the engine goes to IDLE. *)
Theorem transfer_packet_step mem_depth pre i :
  let s := run (reset mem_depth) pre in
  let s' := step s i in
  let kept := if stream_ready i then tl (data_buffer s) else data_buffer s in
  packet_queue s = PacketQueue.TRANSFER_PACKET ->
  packet_transferred s' = packet_transferred s + 1 /\
  (packet_transferred s = 0 ->
     data_pushed s = [slice (packet_length s) 8 16] /\
     data_buffer s' = kept ++ [slice (packet_length s) 8 16] /\
     packet_popped s = [] /\
     packet_buffer s' = packet_buffer s ++ packet_pushed s i /\
     packet_length s' = packet_length s /\
     packet_queue s' = PacketQueue.TRANSFER_PACKET) /\
  (packet_transferred s = 1 ->
     data_pushed s = [slice (packet_length s) 0 8] /\
     data_buffer s' = kept ++ [slice (packet_length s) 0 8] /\
     packet_popped s = [] /\
     packet_buffer s' = packet_buffer s ++ packet_pushed s i /\
     packet_length s' = packet_length s /\
     packet_queue s' = PacketQueue.TRANSFER_PACKET) /\
  (packet_transferred s <> 0 -> packet_transferred s <> 1 -> packet_length s <> 0 ->
     2 <= packet_transferred s /\
     packet_length s' = packet_length s - 1 /\
     packet_queue s' = PacketQueue.TRANSFER_PACKET /\
     (forall b rest, packet_buffer s = b :: rest ->
        data_pushed s = [b] /\ data_buffer s' = kept ++ [b] /\
        packet_popped s = [b] /\ packet_buffer s' = rest ++ packet_pushed s i) /\
     (packet_buffer s = [] ->
        data_pushed s = [Fifo.r_data []] /\ data_buffer s' = kept ++ [Fifo.r_data []] /\
        packet_popped s = [] /\ packet_buffer s' = packet_pushed s i)) /\
  (packet_transferred s <> 0 -> packet_transferred s <> 1 -> packet_length s = 0 ->
     data_pushed s = [] /\ data_buffer s' = kept /\
     packet_popped s = [] /\
     packet_buffer s' = packet_buffer s ++ packet_pushed s i /\
     packet_length s' = 0 /\
     packet_queue s' = PacketQueue.IDLE).
Proof.
  intros s s' kept Hq. subst s' kept.
  pose proof (engine_sound_reached mem_depth pre) as Hs. fold s in Hs.
  pose proof (staging_holds_bytes pre (reset mem_depth) (Forall_nil _)) as Hby. fold s in Hby.
  pose proof (write_taken s Hs) as Wt.
  pose proof (data_pushed_none s) as Wn.
  destruct Hs as [_ Hl Hp Hph]. unfold word16 in Hl.
  assert (T17 : trunc 17 (packet_transferred s + 1) = packet_transferred s + 1).
  { rewrite trunc_small; change (2 ^ 17) with 131072; lia. }
  assert (T16 : packet_length s <> 0 ->
                trunc 16 (packet_length s - 1) = packet_length s - 1).
  { intros Hn. rewrite trunc_small; change (2 ^ 16) with 65536; lia. }
  rewrite data_buffer_step, packet_buffer_step. unfold packet_popped.
  remember (data_pushed s) as dp eqn:Edp. clear Edp.
  remember (packet_pushed s i) as pp eqn:Epp. clear Epp.
  revert Wt Wn.
  unfold step, packet_queue_fsm; rewrite Hq; proj_red; rewrite T17.
  intros Wt Wn.
  split; [repeat (break_if; proj_red); reflexivity|].
  split; [|split; [|split]].
  - intros H0. rewrite H0 in *. cbn [Z.eqb] in *. proj_red.
    rewrite (Wt eq_refl), (header_byte _ 8 16) by lia. auto 8.
  - intros H1. rewrite H1 in *. cbn [Z.eqb Pos.eqb] in *. proj_red.
    rewrite (Wt eq_refl), (header_byte _ 0 8) by lia. auto 8.
  - intros H0 H1 Hn.
    apply Z.eqb_neq in H0, H1. rewrite H0, H1 in *.
    assert (El : (packet_length s =? 0) = false) by now apply Z.eqb_neq.
    rewrite El in *. cbn [negb] in *. proj_red. rewrite (Wt eq_refl).
    apply Z.eqb_neq in H0, H1.
    split; [lia|]. split; [now apply T16|]. split; [reflexivity|]. split.
    + intros b rest Eb. rewrite Eb in *. cbn [Fifo.r_data hd tl firstn].
      assert (Hb : is_byte b) by now inversion Hby.
      rewrite (trunc8_byte b Hb). auto.
    + intros Eb. rewrite Eb. cbn [tl firstn app].
      change (trunc 8 (Fifo.r_data [])) with (Fifo.r_data []). auto.
  - intros H0 H1 Hz.
    apply Z.eqb_neq in H0, H1. rewrite H0, H1 in *. rewrite Hz in *.
    cbn [Z.eqb negb] in *. proj_red. rewrite (Wn eq_refl), app_nil_r. auto 8.
Qed.

(** C7 as stated fails when the staging buffer has run empty: this state,
    reached from reset, is in TRANSFER_PACKET past the header with a working
    length of 2 and an empty staging buffer; the engine pushes a byte to the
    output ring buffer that comes from no staged byte, and removes nothing. *)
Lemma transfer_from_empty_staging :
  packet_queue starved = PacketQueue.TRANSFER_PACKET /\
  packet_transferred starved = 1024 /\ packet_length starved = 2 /\
  packet_buffer starved = [] /\
  data_pushed starved = [0] /\ packet_popped starved = [] /\
  packet_length (step starved (quiet true true)) = 1.
Proof. vm_compute. repeat split. Qed.

Lemma transfer_packet_step_witness :
  packet_queue transferring = PacketQueue.TRANSFER_PACKET /\
  packet_transferred (step transferring (quiet true false)) = 1 /\
  data_buffer (step transferring (quiet true false)) = [0].
Proof.
  assert (H : packet_queue transferring = PacketQueue.TRANSFER_PACKET) by reflexivity.
  split; [exact H|].
  destruct (transfer_packet_step 8
              (quiet true false :: session false [1] ++ repeat (quiet true false) 3)
              (quiet true false) H) as (A & B & _).
  destruct (B eq_refl) as (_ & C & _).
  split; [exact A | exact C].
Defined.

(** ** Disabling capture during a session (C8) *)








